(** * The task store of the to-do backend

    A shallow embedding of the Express server of the repository (the
    handlers of [/api/tasks] and the two file helpers [readTasks] and
    [writeTasks]) together with the properties of the store that the
    specification states.

    The server is sequential read-modify-write code over one file,
    [tasks.json].  Everything the handlers touch besides their arguments
    is gathered in a [world]: the file, whether reading or writing it
    fails, the number of [fs.writeFile] calls issued so far, the wall
    clock and the random source.  A handler is a function from worlds to
    an outcome and a new world; exceptions are outcomes. *)

From Stdlib Require Import Floats.PrimFloat.
From Stdlib Require Import Strings.String Strings.Ascii.
From Stdlib Require DecimalString.
From stdpp Require Import base numbers option list.

Local Open Scope string_scope.
Local Open Scope list_scope.

(** ** JavaScript strings *)

(** A JavaScript string is a sequence of UTF-16 code units. *)
Abbreviation jsstring := (list N).

(** The code units of an ASCII literal of the source. *)
Definition js (s : string) : jsstring :=
  (λ a, N_of_ascii a) <$> list_ascii_of_string s.

(** [WhiteSpace] and [LineTerminator] of ECMAScript, the characters that
    [String.prototype.trim] strips. *)
Definition is_whitespace (c : N) : bool :=
  ((9 <=? c) && (c <=? 13) || (c =? 32) || (c =? 160) || (c =? 5760)
   || (8192 <=? c) && (c <=? 8202) || (c =? 8232) || (c =? 8233)
   || (c =? 8239) || (c =? 8287) || (c =? 12288) || (c =? 65279))%N.

Fixpoint trimStart (s : jsstring) : jsstring :=
  match s with
  | [] => []
  | c :: s' => if is_whitespace c then trimStart s' else s
  end.

Definition trimEnd (s : jsstring) : jsstring :=
  reverse (trimStart (reverse s)).

Definition trim (s : jsstring) : jsstring := trimEnd (trimStart s).

(** [s.substr(start, length)] for non-negative arguments. *)
Definition substr (start len : nat) (s : jsstring) : jsstring :=
  take len (drop start s).

(** [n.toString()] for a non-negative integer: its decimal digits. *)
Definition toString (n : N) : jsstring :=
  js (DecimalString.NilZero.string_of_uint (N.to_uint n)).

(** ** Values of a request body *)

(** The [text] property of [req.body] as [express.json()] delivers it:
    absent, or any JSON value.  Arrays and objects are not told apart,
    the handler only looks at [typeof] and at truthiness. *)
Inductive jsvalue :=
  | JUndefined
  | JNull
  | JBoolean (b : bool)
  | JNumber (x : float)
  | JString (s : jsstring)
  | JObject.

Definition typeof (v : jsvalue) : string :=
  match v with
  | JUndefined => "undefined"
  | JNull => "object"
  | JBoolean _ => "boolean"
  | JNumber _ => "number"
  | JString _ => "string"
  | JObject => "object"
  end.

(** [ToBoolean]: the values that [!v] sends to [true] are [undefined],
    [null], [false], [0], [-0], [NaN] and the empty string. *)
Definition truthy (v : jsvalue) : bool :=
  match v with
  | JUndefined | JNull => false
  | JBoolean b => b
  | JNumber x => negb (PrimFloat.eqb x 0 || PrimFloat.is_nan x)
  | JString s => negb (bool_decide (s = []))
  | JObject => true
  end.

(** ** Tasks *)

(** [new Date().toISOString()] prints the instant read from the clock, in
    milliseconds since the epoch, as ISO-8601 text.  The text determines
    the instant and conversely, so a timestamp is kept as its instant. *)
Record isotime := ISO { epoch_ms : N }.

Record Task := mkTask {
  id : jsstring;
  text : jsstring;
  completed : bool;
  createdAt : isotime;
  updatedAt : isotime
}.

Global Instance isotime_eq_dec : EqDecision isotime.
Proof. solve_decision. Defined.

Global Instance Task_eq_dec : EqDecision Task.
Proof. solve_decision. Defined.

(** ** The world of the server *)

(** The text of [tasks.json], by what [readTasks] can tell apart: text
    that is empty after [trim], text that [JSON.parse] rejects, and the
    serialisation of an array of tasks, which is what [writeTasks]
    produces.  [JSON.parse] of [JSON.stringify tasks] is [tasks] again.

    These are the states that the server itself can leave behind. Text
    that parses to something else ([null], an object, an array of other
    values) has no place here: [readTasks] would return that value and
    the handlers would go on with it as if it were an array of tasks,
    some of them into a [TypeError] and so a 500. Every statement below
    is about a [tasks.json] of one of the three kinds, or none. *)
Inductive content :=
  | Blank
  | Garbage
  | Doc (tasks : list Task).

Record world := mkWorld {
  file : option content;          (* tasks.json, [None] while it does not exist *)
  read_fault : option jsstring;   (* message of the error [fs.readFile] raises, if it does *)
  write_fault : option jsstring;  (* message of the error [fs.writeFile] raises, if it does *)
  writes : nat;                   (* calls of [fs.writeFile] issued so far *)
  clock : nat → N;                (* the k-th reading of the clock, in milliseconds *)
  ticks : nat;                    (* readings of the clock taken so far *)
  random : nat → jsstring;        (* [Math.random().toString(36)] at the k-th draw *)
  draws : nat                     (* draws taken so far *)
}.

Definition set_file (c : content) (w : world) : world :=
  mkWorld (Some c) (read_fault w) (write_fault w) (writes w)
          (clock w) (ticks w) (random w) (draws w).

Definition count_write (w : world) : world :=
  mkWorld (file w) (read_fault w) (write_fault w) (S (writes w))
          (clock w) (ticks w) (random w) (draws w).

Definition tick (w : world) : world :=
  mkWorld (file w) (read_fault w) (write_fault w) (writes w)
          (clock w) (S (ticks w)) (random w) (draws w).

Definition draw (w : world) : world :=
  mkWorld (file w) (read_fault w) (write_fault w) (writes w)
          (clock w) (ticks w) (random w) (S (draws w)).

(** ** Computations: state and exceptions *)

Inductive outcome (A : Type) :=
  | Returned (a : A)
  | Thrown (message : jsstring).
Arguments Returned {A} a.
Arguments Thrown {A} message.

Definition M (A : Type) : Type := world → outcome A * world.

Global Instance M_ret : MRet M := λ A a w, (Returned a, w).

Global Instance M_bind : MBind M := λ A B k m w,
  match m w with
  | (Returned a, w') => k a w'
  | (Thrown e, w') => (Thrown e, w')
  end.

Definition throw {A} (message : jsstring) : M A := λ w, (Thrown message, w).

(** [try { m } catch (error) { h error }] *)
Definition try_catch {A} (m : M A) (h : jsstring → M A) : M A := λ w,
  match m w with
  | (Returned a, w') => (Returned a, w')
  | (Thrown e, w') => h e w'
  end.

(** ** The file system, the clock and the random source *)

Definition fs_access : M unit := λ w,
  match file w with
  | Some _ => (Returned (), w)
  | None => (Thrown (js "ENOENT: no such file or directory"), w)
  end.

Definition fs_readFile : M content := λ w,
  match read_fault w with
  | Some e => (Thrown e, w)
  | None =>
      match file w with
      | Some c => (Returned c, w)
      | None => (Thrown (js "ENOENT: no such file or directory"), w)
      end
  end.

(** A write that fails is taken to fail before it touches the file. *)
Definition fs_writeFile (c : content) : M unit := λ w,
  match write_fault w with
  | Some e => (Thrown e, count_write w)
  | None => (Returned (), set_file c (count_write w))
  end.

Definition Date_now : M N := λ w, (Returned (clock w (ticks w)), tick w).

Definition new_Date_toISOString : M isotime := λ w,
  (Returned (ISO (clock w (ticks w))), tick w).

Definition Math_random_toString36 : M jsstring := λ w,
  (Returned (random w (draws w)), draw w).

Definition JSON_stringify (tasks : list Task) : content := Doc tasks.

Definition JSON_parse (data : content) : M (list Task) :=
  match data with
  | Doc tasks => mret tasks
  | Blank => throw (js "Unexpected end of JSON input")
  | Garbage => throw (js "Unexpected token in JSON")
  end.

(** [!data.trim()] *)
Definition is_blank (data : content) : bool :=
  match data with Blank => true | _ => false end.

(** ** readTasks and writeTasks *)

(** The inner [try] returns from the function in its [catch]; [Some r]
    is that early return. *)
Definition readTasks : M (list Task) :=
  try_catch
    (early ← try_catch
               (fs_access;; mret None)
               (λ _, fs_writeFile (JSON_stringify []);; mret (Some []));
     match early with
     | Some r => mret r
     | None =>
         data ← fs_readFile;
         if is_blank data then mret [] else JSON_parse data
     end)
    (λ _, mret []).

Definition writeTasks (tasks : list Task) : M unit :=
  try_catch (fs_writeFile (JSON_stringify tasks)) (λ error, throw error).

(** ** Responses *)

(** The values of the properties of the object literals that the
    handlers pass to [res.json]. *)
Inductive field :=
  | FString (s : jsstring)
  | FNumber (n : nat).

Inductive payload :=
  | PTasks (tasks : list Task)               (* an array of tasks *)
  | PTask (task : Task)                      (* one task *)
  | PObject (fields : list (string * field)) (* an object literal *)
  | PUndefined.

Record response := mkResponse { status : nat; body : payload }.

(** [o[key]] on a payload that is an object literal. *)
Fixpoint get_field (key : string) (fields : list (string * field)) : option field :=
  match fields with
  | [] => None
  | (k, v) :: rest => if String.eqb k key then Some v else get_field key rest
  end.

Definition property (key : string) (p : payload) : option field :=
  match p with
  | PObject fields => get_field key fields
  | _ => None
  end.

(** [res.json(x)] answers with status 200, [res.status(n).json(x)] with [n]. *)
Definition res_json (p : payload) : response := mkResponse 200 p.
Definition res_status_json (n : nat) (p : payload) : response := mkResponse n p.

(** The [catch] that closes every handler. *)
Definition failed (what : string) (error : jsstring) : M response :=
  mret (res_status_json 500
          (PObject [("error", FString (js what)); ("details", FString error)])).

(** ** The handlers *)

(** [tasks.findIndex(p)]: the first index whose element satisfies [p],
    [-1] when there is none. *)
Definition findIndex {A} (P : A → Prop) `{∀ x, Decision (P x)} (l : list A) : Z :=
  match list_find P l with
  | Some (i, _) => Z.of_nat i
  | None => -1
  end.

Definition set_completed (b : bool) (t : Task) : Task :=
  mkTask (id t) (text t) b (createdAt t) (updatedAt t).

Definition set_updatedAt (u : isotime) (t : Task) : Task :=
  mkTask (id t) (text t) (completed t) (createdAt t) u.

(** [tasks[i]] as an argument of [res.json]. *)
Definition element (tasks : list Task) (i : nat) : payload :=
  match tasks !! i with
  | Some t => PTask t
  | None => PUndefined
  end.

(** GET /api/tasks *)
Definition get_tasks : M response :=
  try_catch
    (tasks ← readTasks;
     mret (res_json (PTasks tasks)))
    (failed "Failed to fetch tasks").

(** [!text || typeof text !== 'string' || text.trim() === ''];
    [trim] is only reached on a string. *)
Definition rejected (text : jsvalue) : bool :=
  negb (truthy text)
  || negb (String.eqb (typeof text) "string")
  || match text with
     | JString s => bool_decide (trim s = [])
     | _ => false
     end.

Definition trimmed (text : jsvalue) : jsstring :=
  match text with
  | JString s => trim s
  | _ => []
  end.

(** POST /api/tasks, with [text] the property of that name of [req.body]. *)
Definition post_tasks (text : jsvalue) : M response :=
  try_catch
    (if rejected text then
       mret (res_status_json 400
               (PObject [("error",
                          FString (js "Task text is required and must be a non-empty string"))]))
     else
       tasks ← readTasks;
       now ← Date_now;
       rnd ← Math_random_toString36;
       created ← new_Date_toISOString;
       updated ← new_Date_toISOString;
       let newTask :=
         {| id := toString now ++ substr 2 9 rnd;
            text := trimmed text;
            completed := false;
            createdAt := created;
            updatedAt := updated |} in
       let tasks := tasks ++ [newTask] in
       writeTasks tasks;;
       mret (res_status_json 201 (PTask newTask)))
    (failed "Failed to add task").

(** PUT /api/tasks/:id *)
Definition put_task (id' : jsstring) : M response :=
  try_catch
    (tasks ← readTasks;
     let taskIndex := findIndex (λ task, id task = id') tasks in
     if (taskIndex =? -1)%Z then
       mret (res_status_json 404 (PObject [("error", FString (js "Task not found"))]))
     else
       let i := Z.to_nat taskIndex in
       let tasks := alter (λ task, set_completed (negb (completed task)) task) i tasks in
       now ← new_Date_toISOString;
       let tasks := alter (set_updatedAt now) i tasks in
       writeTasks tasks;;
       mret (res_json (element tasks i)))
    (failed "Failed to update task").

(** DELETE /api/tasks/:id *)
Definition delete_task (id' : jsstring) : M response :=
  try_catch
    (tasks ← readTasks;
     let filteredTasks := filter (λ task, id task ≠ id') tasks in
     if (length tasks =? length filteredTasks)%nat then
       mret (res_status_json 404 (PObject [("error", FString (js "Task not found"))]))
     else
       writeTasks filteredTasks;;
       mret (res_json
               (PObject [("message", FString (js "Task deleted successfully"));
                         ("deletedId", FString id');
                         ("remainingTasks", FNumber (length filteredTasks))])))
    (failed "Failed to delete task").

(** DELETE /api/tasks/clear/completed *)
Definition delete_completed : M response :=
  try_catch
    (tasks ← readTasks;
     let completedTasks := filter (λ task, completed task = true) tasks in
     let activeTasks := filter (λ task, completed task ≠ true) tasks in
     if (length completedTasks =? 0)%nat then
       mret (res_json
               (PObject [("message", FString (js "No completed tasks to clear"));
                         ("cleared", FNumber 0);
                         ("remaining", FNumber (length tasks))]))
     else
       writeTasks activeTasks;;
       mret (res_json
               (PObject [("message", FString (js "Completed tasks cleared successfully"));
                         ("cleared", FNumber (length completedTasks));
                         ("remaining", FNumber (length activeTasks))])))
    (failed "Failed to clear completed tasks").

(** The five operations of the store as requests. *)
Inductive request :=
  | List
  | Add (text : jsvalue)
  | Toggle (id' : jsstring)
  | Delete (id' : jsstring)
  | ClearCompleted.

Definition handle (r : request) : M response :=
  match r with
  | List => get_tasks
  | Add text => post_tasks text
  | Toggle i => put_task i
  | Delete i => delete_task i
  | ClearCompleted => delete_completed
  end.

(** ** The Collection a world holds, and what the statements speak of *)

(** The tasks persisted in [tasks.json]; none while the file is absent,
    blank or not parseable. *)
Definition collection (w : world) : list Task :=
  match file w with
  | Some (Doc tasks) => tasks
  | _ => []
  end.

(** The world once [readTasks] has run: the file is created, if it can
    be, when it was absent. *)
Definition initialised (w : world) : world :=
  match file w with
  | Some _ => w
  | None =>
      match write_fault w with
      | Some _ => count_write w
      | None => set_file (Doc []) (count_write w)
      end
  end.

(** What [readTasks] returns: the persisted tasks when the file can be
    read, no task otherwise. *)
Definition loaded (w : world) : list Task :=
  match read_fault w with
  | Some _ => []
  | None => collection w
  end.

(** Text that is empty or made of whitespace only. *)
Definition blank (s : jsstring) : Prop := Forall (λ c, is_whitespace c = true) s.

(** The [text] of a request that the specification of Add accepts: a
    string that is neither empty nor made of whitespace only. *)
Definition valid_text (v : jsvalue) : Prop :=
  match v with
  | JString s => ¬ blank s
  | _ => False
  end.

(** All the tasks of a list carry different ids. *)
Definition unique_ids (tasks : list Task) : Prop := NoDup (id <$> tasks).

(** The id that Add is about to generate in a world. *)
Definition next_id (w : world) : jsstring :=
  toString (clock w (ticks w)) ++ substr 2 9 (random w (draws w)).

(** Whether a text is blank can be computed. *)
Global Instance blank_dec s : Decision (blank s).
Proof. unfold blank. apply _. Defined.

(** The task that Add builds in a world: three readings of the clock
    and one draw, in the order of the object literal. *)
Definition built_task (s : jsstring) (w : world) : Task :=
  {| id := next_id w;
     text := trim s;
     completed := false;
     createdAt := ISO (clock w (S (ticks w)));
     updatedAt := ISO (clock w (S (S (ticks w)))) |}.

(** What Toggle makes of the task it found, at the instant [now]. *)
Definition toggled (now : isotime) (t : Task) : Task :=
  set_updatedAt now (set_completed (negb (completed t)) t).

(** The answer of Toggle and Delete to an id that is not there. *)
Definition not_found : response :=
  mkResponse 404 (PObject [("error", FString (js "Task not found"))]).

(** ** Sample worlds *)

(** A completed task, added at 995 and toggled at 997. *)
Definition walk_dog : Task :=
  mkTask (js "995xyz") (js "walk dog") true (ISO 995) (ISO 997).

(** A task added at 1000 and not touched since. *)
Definition buy_milk : Task :=
  mkTask (js "1000abc") (js "buy milk") false (ISO 1000) (ISO 1000).

(** Two tasks on disk, no fault, a clock that advances by a millisecond
    between two readings. The next reading is 1000, the instant at
    which [buy_milk] was added, and the next draw is the one that gave
    [buy_milk] its suffix. *)
Definition sample_world : world :=
  {| file := Some (Doc [walk_dog; buy_milk]);
     read_fault := None;
     write_fault := None;
     writes := 0;
     clock := λ k, (1000 + N.of_nat k)%N;
     ticks := 0;
     random := λ _, js "0.abc";
     draws := 0 |}.

(** The world of [sample_world] a millisecond later. *)
Definition later_world : world :=
  {| file := Some (Doc [walk_dog; buy_milk]);
     read_fault := None;
     write_fault := None;
     writes := 0;
     clock := λ k, (1001 + N.of_nat k)%N;
     ticks := 0;
     random := λ _, js "0.abc";
     draws := 0 |}.

(** One task on disk, not completed. *)
Definition quiet_world : world :=
  {| file := Some (Doc [buy_milk]);
     read_fault := None;
     write_fault := None;
     writes := 3;
     clock := λ _, 2000%N;
     ticks := 7;
     random := λ _, js "0.k3";
     draws := 1 |}.

(** [tasks.json] holds two tasks and cannot be read. *)
Definition unreadable_world : world :=
  {| file := Some (Doc [walk_dog; buy_milk]);
     read_fault := Some (js "EACCES: permission denied");
     write_fault := None;
     writes := 0;
     clock := λ k, (1000 + N.of_nat k)%N;
     ticks := 0;
     random := λ _, js "0.abc";
     draws := 0 |}.

(** [tasks.json] holds two tasks and cannot be written. *)
Definition readonly_world : world :=
  {| file := Some (Doc [walk_dog; buy_milk]);
     read_fault := None;
     write_fault := Some (js "EROFS: read-only file system");
     writes := 0;
     clock := λ k, (1000 + N.of_nat k)%N;
     ticks := 0;
     random := λ _, js "0.abc";
     draws := 0 |}.

(** The task that Add appends in [sample_world]: it repeats the id of
    [buy_milk]. *)
Definition feed_cat : Task :=
  mkTask (js "1000abc") (js "feed cat") false (ISO 1001) (ISO 1002).

(** The world after that Add: two tasks share an id. *)
Definition twin_world : world :=
  {| file := Some (Doc [walk_dog; buy_milk; feed_cat]);
     read_fault := None;
     write_fault := None;
     writes := 1;
     clock := λ k, (1000 + N.of_nat k)%N;
     ticks := 3;
     random := λ _, js "0.abc";
     draws := 1 |}.

(** No [tasks.json] yet. *)
Definition fresh_world : world :=
  {| file := None;
     read_fault := None;
     write_fault := None;
     writes := 0;
     clock := λ k, (1000 + N.of_nat k)%N;
     ticks := 0;
     random := λ _, js "0.abc";
     draws := 0 |}.

(** ** Start-up *)

(** [initializeTasksFile], which [startServer] awaits before it listens. *)
Definition initializeTasksFile : M (list Task) :=
  try_catch
    (tasks ← readTasks;
     mret tasks)
    (λ _, mret []).

(** ** The answers of the handlers, branch by branch *)

(** [served w r resp w']: in world [w] the handler of [r] takes the
    branch that answers [resp] and leaves [w']. One constructor for each
    way through a handler; [w1] is the world that [readTasks] leaves. *)
Inductive served (w : world) : request → response → world → Prop :=
  | served_list :
      served w List (mkResponse 200 (PTasks (loaded w))) (initialised w)
  | served_add_rejected v :
      rejected v = true →
      served w (Add v)
        (mkResponse 400
           (PObject [("error",
                      FString (js "Task text is required and must be a non-empty string"))]))
        w
  | served_add_failed s e :
      ¬ blank s → write_fault (initialised w) = Some e →
      served w (Add (JString s))
        (mkResponse 500
           (PObject [("error", FString (js "Failed to add task"));
                     ("details", FString e)]))
        (count_write (tick (tick (draw (tick (initialised w))))))
  | served_add_created s :
      ¬ blank s → write_fault (initialised w) = None →
      served w (Add (JString s))
        (mkResponse 201 (PTask (built_task s (initialised w))))
        (set_file (Doc (loaded w ++ [built_task s (initialised w)]))
           (count_write (tick (tick (draw (tick (initialised w)))))))
  | served_toggle_unknown i :
      i ∉ id <$> loaded w →
      served w (Toggle i) not_found (initialised w)
  | served_toggle_failed i k t e :
      list_find (λ task, id task = i) (loaded w) = Some (k, t) →
      write_fault (initialised w) = Some e →
      served w (Toggle i)
        (mkResponse 500
           (PObject [("error", FString (js "Failed to update task"));
                     ("details", FString e)]))
        (count_write (tick (initialised w)))
  | served_toggle_done i k t :
      list_find (λ task, id task = i) (loaded w) = Some (k, t) →
      write_fault (initialised w) = None →
      let now := ISO (clock (initialised w) (ticks (initialised w))) in
      served w (Toggle i)
        (mkResponse 200 (PTask (toggled now t)))
        (set_file (Doc (alter (toggled now) k (loaded w)))
           (count_write (tick (initialised w))))
  | served_delete_unknown i :
      i ∉ id <$> loaded w →
      served w (Delete i) not_found (initialised w)
  | served_delete_failed i e :
      i ∈ id <$> loaded w → write_fault (initialised w) = Some e →
      served w (Delete i)
        (mkResponse 500
           (PObject [("error", FString (js "Failed to delete task"));
                     ("details", FString e)]))
        (count_write (initialised w))
  | served_delete_done i :
      i ∈ id <$> loaded w → write_fault (initialised w) = None →
      let rest := filter (λ task, id task ≠ i) (loaded w) in
      served w (Delete i)
        (mkResponse 200
           (PObject [("message", FString (js "Task deleted successfully"));
                     ("deletedId", FString i);
                     ("remainingTasks", FNumber (length rest))]))
        (set_file (Doc rest) (count_write (initialised w)))
  | served_clear_nothing :
      filter (λ task, completed task = true) (loaded w) = [] →
      served w ClearCompleted
        (mkResponse 200
           (PObject [("message", FString (js "No completed tasks to clear"));
                     ("cleared", FNumber 0);
                     ("remaining", FNumber (length (loaded w)))]))
        (initialised w)
  | served_clear_failed e :
      filter (λ task, completed task = true) (loaded w) ≠ [] →
      write_fault (initialised w) = Some e →
      served w ClearCompleted
        (mkResponse 500
           (PObject [("error", FString (js "Failed to clear completed tasks"));
                     ("details", FString e)]))
        (count_write (initialised w))
  | served_clear_done :
      filter (λ task, completed task = true) (loaded w) ≠ [] →
      write_fault (initialised w) = None →
      served w ClearCompleted
        (mkResponse 200
           (PObject [("message", FString (js "Completed tasks cleared successfully"));
                     ("cleared",
                      FNumber (length (filter (λ task, completed task = true) (loaded w))));
                     ("remaining",
                      FNumber (length (filter (λ task, completed task ≠ true) (loaded w))))]))
        (set_file (Doc (filter (λ task, completed task ≠ true) (loaded w)))
           (count_write (initialised w))).

(** * The page

    [script.js], the client of the server above. It keeps a copy of the
    Collection in the global [tasks], sends one request for each thing
    the user does, and redraws the list from the copy. The page is
    modelled by the state that the functions read and write; timers
    (the button that reads "Added!" for a second, the notification that
    goes after three) are left out.

    [fetch] is taken to deliver the request and bring back the answer.
    The id of a task is spliced into the URL as it is: the route
    parameter is that id when the id is plain, made of digits and
    lowercase letters as are the ones that Add generates. With another
    id (a slash, a question mark, a percent sign in it) the request may
    reach another route, and what is said of a request for that id is
    then not said of the page. *)

Module Frontend.

(** The children of [taskList]. *)
Inductive listing :=
  | EmptyState                    (* the block that says there is no task yet *)
  | Items (shown : list Task).    (* one [li] for each task, in this order *)

Record page := mkPage {
  tasks : list Task;                         (* the global [tasks] *)
  taskInput : jsstring;                      (* [taskInput.value] *)
  taskList : listing;
  counter : option (nat * nat * nat);        (* Total, Pending, Completed of [.task-counter] *)
  notification : option (jsstring * string); (* message and type of [.notification] *)
  alerts : list jsstring                     (* what [alert] has shown, oldest first *)
}.

Definition set_tasks (l : list Task) (p : page) : page :=
  mkPage l (taskInput p) (taskList p) (counter p) (notification p) (alerts p).

Definition set_taskInput (s : jsstring) (p : page) : page :=
  mkPage (tasks p) s (taskList p) (counter p) (notification p) (alerts p).

Definition set_taskList (l : listing) (p : page) : page :=
  mkPage (tasks p) (taskInput p) l (counter p) (notification p) (alerts p).

Definition set_counter (c : nat * nat * nat) (p : page) : page :=
  mkPage (tasks p) (taskInput p) (taskList p) (Some c) (notification p) (alerts p).

Definition alert (message : string) (p : page) : page :=
  mkPage (tasks p) (taskInput p) (taskList p) (counter p) (notification p)
         (alerts p ++ [js message]).

(** [showNotification(message, type)]: the notification there was, if
    any, is removed and the new one appended. *)
Definition showNotification (message : jsstring) (type : string) (p : page) : page :=
  mkPage (tasks p) (taskInput p) (taskList p) (counter p) (Some (message, type)) (alerts p).

(** The comparator of [renderTasks]. [new Date(b.createdAt) - new
    Date(a.createdAt)] is the difference of the two instants in
    milliseconds. *)
Definition compareTasks (a b : Task) : Z :=
  if negb (Bool.eqb (completed a) (completed b)) then
    if completed a then 1 else -1
  else
    Z.of_N (epoch_ms (createdAt b)) - Z.of_N (epoch_ms (createdAt a)).

(** [a] may come before [b]: the comparator does not put [b] first. *)
Definition before (a b : Task) : Prop := (compareTasks a b ≤ 0)%Z.

Global Instance before_dec a b : Decision (before a b).
Proof. unfold before. apply _. Defined.

(** [[...l].sort(compareTasks)]. ECMAScript wants the sort stable, and
    with a consistent comparator the result is then the same whichever
    algorithm runs; here each task is inserted in front of the first
    one that the comparator does not put before it. *)
Fixpoint insert (x : Task) (l : list Task) : list Task :=
  match l with
  | [] => [x]
  | y :: l' => if decide (before x y) then x :: l else y :: insert x l'
  end.

Fixpoint sort (l : list Task) : list Task :=
  match l with
  | [] => []
  | x :: l' => insert x (sort l')
  end.

Definition updateTaskCounter (p : page) : page :=
  let total := length (tasks p) in
  let completed := length (filter (λ task, completed task = true) (tasks p)) in
  let pending := total - completed in
  set_counter (total, pending, completed) p.

(** [renderTasks]: with no task it shows the empty state and returns,
    before the counter is brought up to date. *)
Definition renderTasks (p : page) : page :=
  if (length (tasks p) =? 0)%nat then
    set_taskList EmptyState p
  else
    updateTaskCounter (set_taskList (Items (sort (tasks p))) p).

(** The bytes that one code unit outside a surrogate pair takes in the
    body of a request: [JSON.stringify] writes the quote, the backslash
    and five control characters as two characters, the other control
    characters and a lone surrogate as [\uXXXX], and the rest as it is,
    which UTF-8 then encodes in one to three bytes. *)
Definition unit_bytes (c : N) : N :=
  if ((c =? 34) || (c =? 92) || (c =? 8) || (c =? 9) || (c =? 10)
      || (c =? 12) || (c =? 13))%N then 2
  else if (c <? 32)%N then 6
  else if (c <? 128)%N then 1
  else if (c <? 2048)%N then 2
  else if ((55296 <=? c) && (c <=? 57343))%N then 6
  else 3.

(** A high surrogate followed by a low one is one character of four
    bytes. *)
Definition surrogate_pair (c d : N) : bool :=
  ((55296 <=? c) && (c <=? 56319) && (56320 <=? d) && (d <=? 57343))%N.

Fixpoint string_bytes (s : jsstring) : N :=
  match s with
  | [] => 0
  | c :: s' =>
      match s' with
      | d :: s'' =>
          if surrogate_pair c d then 4 + string_bytes s''
          else unit_bytes c + string_bytes s'
      | [] => unit_bytes c
      end
  end.

(** The length in bytes of [JSON.stringify({ text })] for a string
    [text]: the eleven bytes of the braces, the key, the colon and the
    two quotes, and the text. *)
Definition body_bytes (text : jsstring) : N := 11 + string_bytes text.

(** [express.json()] reads a body of at most 100kb. *)
Definition body_limit : N := 102400.

(** The page sends a body with Add only, and only a string in it. *)
Definition too_large (r : request) : bool :=
  match r with
  | Add (JString text) => (body_limit <? body_bytes text)%N
  | _ => false
  end.

(** [await fetch(...)] against the server. A body over the limit is
    refused by [express.json()] before any handler runs, and Express
    answers 413 with a page that is not JSON. No handler throws; Express
    would answer 500 if one did. *)
Definition fetch (r : request) (w : world) : response * world :=
  if too_large r then (mkResponse 413 PUndefined, w)
  else
    match handle r w with
    | (Returned resp, w') => (resp, w')
    | (Thrown _, w') => (mkResponse 500 PUndefined, w')
    end.

(** [response.ok] *)
Definition ok (resp : response) : bool :=
  (200 <=? status resp)%nat && (status resp <=? 299)%nat.

(** [`${v}`] for the value of a property that may be missing. *)
Definition interpolate (v : option field) : jsstring :=
  match v with
  | None => js "undefined"
  | Some (FString s) => s
  | Some (FNumber n) => toString (N.of_nat n)
  end.

(** The functions below return [None] when an answer does not have the
    shape that the page goes on to use as a task or as an array of
    tasks; the server never sends such an answer. *)

Definition fetchTasks (p : page) (w : world) : option (page * world) :=
  let (response, w') := fetch List w in
  if negb (ok response) then
    Some (renderTasks
            (set_tasks []
               (alert "Failed to load tasks. Please check if backend is running." p)),
          w')
  else
    match body response with
    | PTasks l => Some (renderTasks (set_tasks l p), w')
    | _ => None
    end.

Definition addTask (p : page) (w : world) : option (page * world) :=
  let text := trim (taskInput p) in
  if bool_decide (text = []) then
    Some (alert "Please enter a task!" p, w)
  else
    let (response, w') := fetch (Add (JString text)) w in
    if negb (ok response) then
      Some (alert "Failed to add task. Please try again." p, w')
    else
      match body response with
      | PTask newTask =>
          Some (renderTasks (set_taskInput [] (set_tasks (tasks p ++ [newTask]) p)), w')
      | _ => None
      end.

Definition toggleTask (id' : jsstring) (p : page) (w : world) : option (page * world) :=
  let (response, w') := fetch (Toggle id') w in
  if negb (ok response) then
    Some (alert "Failed to update task status." p, w')
  else
    match body response with
    | PTask updatedTask =>
        let taskIndex := findIndex (λ task, id task = id') (tasks p) in
        let p :=
          if (taskIndex =? -1)%Z then p
          else set_tasks (<[Z.to_nat taskIndex := updatedTask]> (tasks p)) p in
        Some (renderTasks p, w')
    | _ => None
    end.

(** [confirmed] is what the user answers to [confirm]. *)
Definition deleteTask (id' : jsstring) (confirmed : bool) (p : page) (w : world)
  : option (page * world) :=
  if negb confirmed then Some (p, w)
  else
    let (response, w') := fetch (Delete id') w in
    if negb (ok response) then
      Some (alert "Failed to delete task." p, w')
    else
      let p := set_tasks (filter (λ task, id task ≠ id') (tasks p)) p in
      Some (showNotification (js "Task deleted successfully") "success" (renderTasks p), w').

Definition clearCompleted (confirmed : bool) (p : page) (w : world)
  : option (page * world) :=
  let completedCount := length (filter (λ task, completed task = true) (tasks p)) in
  if (completedCount =? 0)%nat then
    Some (alert "No completed tasks to clear!" p, w)
  else if negb confirmed then Some (p, w)
  else
    let (response, w') := fetch ClearCompleted w in
    if negb (ok response) then
      Some (alert "Failed to clear completed tasks." p, w')
    else
      let result := body response in
      let p := set_tasks (filter (λ task, completed task ≠ true) (tasks p)) p in
      Some (showNotification
              (js "Cleared " ++ interpolate (property "count" result)
                 ++ js " completed task(s)")
              "info" (renderTasks p),
            w').

(** The answers to the requests of the loop are not looked at. *)
Definition clearAll (confirmed : bool) (p : page) (w : world) : option (page * world) :=
  if (length (tasks p) =? 0)%nat then
    Some (alert "No tasks to clear!" p, w)
  else if negb confirmed then Some (p, w)
  else
    let w' := foldl (λ w task, snd (fetch (Delete (id task)) w)) w (tasks p) in
    Some (showNotification (js "All tasks deleted") "warning"
            (renderTasks (set_tasks [] p)),
          w').

(** What the user can do on the page. *)
Inductive gesture :=
  | Reload
  | PressAdd
  | Tick (id' : jsstring)
  | PressDelete (id' : jsstring) (confirmed : bool)
  | PressClearCompleted (confirmed : bool)
  | PressClearAll (confirmed : bool).

Definition perform (g : gesture) : page → world → option (page * world) :=
  match g with
  | Reload => fetchTasks
  | PressAdd => addTask
  | Tick i => toggleTask i
  | PressDelete i c => deleteTask i c
  | PressClearCompleted c => clearCompleted c
  | PressClearAll c => clearAll c
  end.

(** An id made of digits and lowercase letters, and not empty. *)
Definition plain_id (i : jsstring) : bool :=
  negb (bool_decide (i = []))
  && forallb (λ c, ((48 <=? c) && (c <=? 57) || (97 <=? c) && (c <=? 122))%N) i.

(** The ids that a gesture puts into a URL are plain. *)
Definition plain_gesture (g : gesture) : bool :=
  match g with
  | Tick i | PressDelete i _ => plain_id i
  | _ => true
  end.

(** The copy of the page is the Collection of the server. *)
Definition coherent (p : page) (w : world) : Prop := tasks p = collection w.

(** The store reads and writes. *)
Definition healthy (w : world) : Prop := read_fault w = None ∧ write_fault w = None.

(** Every task of the list may come before every task that follows it. *)
Fixpoint in_order (l : list Task) : Prop :=
  match l with
  | [] => True
  | x :: l' => Forall (before x) l' ∧ in_order l'
  end.

(** The page as the script finds it, with [text] typed in. *)
Definition blank_page (text : jsstring) : page :=
  mkPage [] text (Items []) None None [].

(** A page that has loaded [sample_world] and drawn it. *)
Definition sample_page : page :=
  mkPage [walk_dog; buy_milk] (js " feed cat ") (Items [buy_milk; walk_dog])
         (Some (2, 1, 1)) None [].

End Frontend.

(** * Properties *)

(** ** Trimming *)

Lemma trimStart_blank s : blank s → trimStart s = [].
Proof.
  induction 1 as [|c s Hc _ IH]; simpl; [done|]. by rewrite Hc.
Qed.

Lemma trimStart_nil_blank s : trimStart s = [] → blank s.
Proof.
  induction s as [|c s IH]; simpl; [constructor|].
  destruct (is_whitespace c) eqn:Hc; [|done].
  intros E. constructor; [done | by apply IH].
Qed.

Lemma trimStart_head s c r : trimStart s = c :: r → is_whitespace c = false.
Proof.
  induction s as [|d s IH]; simpl; [done|].
  destruct (is_whitespace d) eqn:Hd; [done|]. by intros [= <- _].
Qed.

Lemma trim_nil_iff s : trim s = [] ↔ blank s.
Proof.
  unfold trim, trimEnd. split.
  - intros E. apply trimStart_nil_blank.
    destruct (trimStart s) as [|c r] eqn:Hs; [done|].
    apply trimStart_head in Hs.
    assert (Hb : blank (reverse (c :: r))).
    { apply trimStart_nil_blank.
      apply (f_equal reverse) in E. by rewrite reverse_involutive in E. }
    apply (proj1 (Forall_reverse _ _)) in Hb.
    inversion Hb; simpl in *; congruence.
  - intros Hb. by rewrite (trimStart_blank s Hb).
Qed.

(** ** The two file helpers *)

Lemma readTasks_present w c :
  file w = Some c →
  readTasks w =
    (Returned match read_fault w with
              | Some _ => []
              | None => match c with Doc tasks => tasks | _ => [] end
              end, w).
Proof.
  intros Hf.
  unfold readTasks, try_catch, mbind, M_bind, mret, M_ret, fs_access, fs_readFile.
  rewrite Hf. simpl. rewrite Hf.
  destruct (read_fault w); [done|]. by destruct c.
Qed.

Lemma readTasks_absent w :
  file w = None → readTasks w = (Returned [], initialised w).
Proof.
  intros Hf.
  unfold readTasks, initialised, try_catch, mbind, M_bind, mret, M_ret,
    fs_access, fs_writeFile.
  rewrite Hf. simpl. by destruct (write_fault w).
Qed.

(** [readTasks] never throws. *)
Lemma readTasks_returns w : readTasks w = (Returned (loaded w), initialised w).
Proof.
  unfold loaded, collection, initialised.
  destruct (file w) as [c|] eqn:Hf.
  - rewrite (readTasks_present w c Hf). by destruct (read_fault w), c.
  - rewrite (readTasks_absent w Hf). unfold initialised. rewrite Hf.
    by destruct (read_fault w).
Qed.

Lemma writeTasks_run tasks w :
  writeTasks tasks w =
    match write_fault w with
    | Some e => (Thrown e, count_write w)
    | None => (Returned (), set_file (Doc tasks) (count_write w))
    end.
Proof.
  unfold writeTasks, try_catch, fs_writeFile, throw, JSON_stringify.
  by destruct (write_fault w).
Qed.

Lemma initialised_present w : file w ≠ None → initialised w = w.
Proof. unfold initialised. by destruct (file w). Qed.

Lemma initialised_sound w :
  write_fault w = None →
  collection (initialised w) = collection w ∧
  read_fault (initialised w) = read_fault w ∧
  write_fault (initialised w) = None ∧
  clock (initialised w) = clock w ∧ ticks (initialised w) = ticks w ∧
  random (initialised w) = random w ∧ draws (initialised w) = draws w.
Proof.
  intros Hw. unfold initialised, collection.
  destruct (file w) eqn:Hf; [by rewrite ?Hf|]. by rewrite Hw.
Qed.

(** ** Validation of the text of a request *)

Lemma rejected_invalid v : ¬ valid_text v → rejected v = true.
Proof.
  destruct v as [| |b|x|s|]; simpl; intros Hv;
    try (unfold rejected; simpl; by rewrite ?orb_true_r).
  destruct (decide (blank s)) as [Hb|Hb]; [|done].
  unfold rejected. simpl.
  rewrite (bool_decide_eq_true_2 (trim s = [])) by by apply trim_nil_iff.
  by rewrite orb_true_r.
Qed.

Lemma accepted_valid s : ¬ blank s → rejected (JString s) = false.
Proof.
  intros Hb. unfold rejected. simpl.
  rewrite (bool_decide_eq_false_2 (s = [])).
  - rewrite (bool_decide_eq_false_2 (trim s = [])); [done|].
    by rewrite trim_nil_iff.
  - intros ->. apply Hb. constructor.
Qed.

(** ** Running the handlers *)

Lemma post_tasks_run s w :
  ¬ blank s →
  let w1 := initialised w in
  let w2 := count_write (tick (tick (draw (tick w1)))) in
  post_tasks (JString s) w =
    match write_fault w1 with
    | Some e =>
        (Returned (res_status_json 500
                     (PObject [("error", FString (js "Failed to add task"));
                               ("details", FString e)])), w2)
    | None =>
        (Returned (res_status_json 201 (PTask (built_task s w1))),
         set_file (Doc (loaded w ++ [built_task s w1])) w2)
    end.
Proof.
  intros Hb w1 w2. unfold post_tasks. rewrite (accepted_valid s Hb).
  unfold try_catch, mbind, M_bind. rewrite readTasks_returns. fold w1.
  unfold Date_now, Math_random_toString36, new_Date_toISOString. simpl.
  rewrite writeTasks_run. simpl.
  by destruct (write_fault w1).
Qed.

Lemma get_tasks_run w :
  get_tasks w = (Returned (res_json (PTasks (loaded w))), initialised w).
Proof.
  unfold get_tasks, try_catch, mbind, M_bind. by rewrite readTasks_returns.
Qed.

(** ** Add *)

(** C5. Add with a [text] that is not a string, or that is a string
    empty or made of whitespace only, answers 400 with an error message
    and leaves the world as it found it: the file is not touched, no
    [fs.writeFile] call is issued, the file is not even read. *)
Theorem add_invalid_text_rejected (v : jsvalue) (w : world) :
  ¬ valid_text v →
  post_tasks v w =
    (Returned (mkResponse 400
                 (PObject [("error",
                            FString (js "Task text is required and must be a non-empty string"))])),
     w).
Proof.
  intros Hv. unfold post_tasks, try_catch. by rewrite (rejected_invalid v Hv).
Qed.

Lemma add_invalid_text_rejected_witness :
  ¬ valid_text (JString (js "   ")) ∧
  post_tasks (JString (js "   ")) sample_world =
    (Returned (mkResponse 400
                 (PObject [("error",
                            FString (js "Task text is required and must be a non-empty string"))])),
     sample_world).
Proof.
  assert (H : ¬ valid_text (JString (js "   "))).
  { intros H. apply H. vm_compute. repeat constructor. }
  split; [exact H | exact (add_invalid_text_rejected _ sample_world H)].
Defined.

(** C1, as stated, fails: [createdAt] and [updatedAt] come from two
    readings of the clock, and differ when the clock advances between
    the two. *)
Lemma add_timestamps_may_differ :
  ¬ (∀ (s : jsstring) (w : world) (t : Task) (w' : world),
       valid_text (JString s) →
       post_tasks (JString s) w = (Returned (mkResponse 201 (PTask t)), w') →
       createdAt t = updatedAt t).
Proof.
  intros H.
  specialize (H (js "buy milk") sample_world
                (built_task (js "buy milk") sample_world)
                (snd (post_tasks (JString (js "buy milk")) sample_world))).
  assert (Hv : valid_text (JString (js "buy milk"))).
  { intros Hb. vm_compute in Hb. by inversion Hb. }
  specialize (H Hv). discriminate H. by vm_compute.
Qed.

(** C1, amended. For a [text] that is a string and is not empty once
    trimmed, and a store that reads and writes, Add answers 201 with a
    new task and the Collection becomes the former one followed by that
    task. Its text is the trimmed input, it is not completed, and
    [createdAt] and [updatedAt] are the second and the third reading of
    the clock that the handler takes (the first one goes into the id):
    they are equal when the clock has not advanced in between. A List
    that follows returns the Collection with the new task at its end. *)
Theorem add_appends_task (s : jsstring) (w : world) :
  valid_text (JString s) → read_fault w = None → write_fault w = None →
  ∃ (t : Task) (w' : world),
    post_tasks (JString s) w = (Returned (mkResponse 201 (PTask t)), w') ∧
    collection w' = collection w ++ [t] ∧
    id t = next_id w ∧
    text t = trim s ∧
    completed t = false ∧
    createdAt t = ISO (clock w (1 + ticks w)) ∧
    updatedAt t = ISO (clock w (2 + ticks w)) ∧
    (clock w (1 + ticks w) = clock w (2 + ticks w) → createdAt t = updatedAt t) ∧
    get_tasks w' = (Returned (mkResponse 200 (PTasks (collection w ++ [t]))), w').
Proof.
  intros Hv Hr Hw.
  destruct (initialised_sound w Hw) as (Hc & Hr1 & Hw1 & Hk & Ht & Hd & Hn).
  eexists _, _. split.
  { rewrite (post_tasks_run s w Hv). simpl. rewrite Hw1. reflexivity. }
  unfold built_task, next_id, loaded. rewrite Hr, Hk, Ht, Hd, Hn. simpl.
  repeat split; try done.
  - by intros ->.
  - rewrite get_tasks_run. unfold loaded. simpl. by rewrite Hr1, Hr.
Qed.

Lemma add_appends_task_witness :
  valid_text (JString (js "  feed cat ")) ∧
  read_fault sample_world = None ∧ write_fault sample_world = None ∧
  ∃ (t : Task) (w' : world),
    post_tasks (JString (js "  feed cat ")) sample_world
      = (Returned (mkResponse 201 (PTask t)), w') ∧
    collection w' = collection sample_world ++ [t] ∧
    id t = next_id sample_world ∧
    text t = trim (js "  feed cat ") ∧
    completed t = false ∧
    createdAt t = ISO (clock sample_world (1 + ticks sample_world)) ∧
    updatedAt t = ISO (clock sample_world (2 + ticks sample_world)) ∧
    (clock sample_world (1 + ticks sample_world)
       = clock sample_world (2 + ticks sample_world) →
     createdAt t = updatedAt t) ∧
    get_tasks w'
      = (Returned (mkResponse 200 (PTasks (collection sample_world ++ [t]))), w').
Proof.
  assert (Hv : valid_text (JString (js "  feed cat "))).
  { intros Hb. vm_compute in Hb.
    do 2 (apply Forall_cons_1 in Hb as [_ Hb]). by apply Forall_cons_1 in Hb as [? _]. }
  split; [exact Hv|]. split; [reflexivity|]. split; [reflexivity|].
  exact (add_appends_task _ sample_world Hv eq_refl eq_refl).
Defined.

(** ** Looking a task up by id *)

Lemma findIndex_found {A} (P : A → Prop) `{∀ x, Decision (P x)} l i x :
  list_find P l = Some (i, x) → findIndex P l = Z.of_nat i.
Proof. unfold findIndex. by intros ->. Qed.

Lemma findIndex_none {A} (P : A → Prop) `{∀ x, Decision (P x)} l :
  list_find P l = None → findIndex P l = (-1)%Z.
Proof. unfold findIndex. by intros ->. Qed.

Lemma find_unknown (id' : jsstring) (tasks : list Task) :
  id' ∉ id <$> tasks → list_find (λ task, id task = id') tasks = None.
Proof.
  intros Hn. apply list_find_None, Forall_forall. intros t Ht E.
  apply Hn. rewrite <- E. by apply (list_elem_of_fmap_2 id).
Qed.

Lemma find_known (id' : jsstring) (tasks : list Task) :
  id' ∈ id <$> tasks →
  ∃ i t, list_find (λ task, id task = id') tasks = Some (i, t).
Proof.
  intros (t & -> & Ht)%list_elem_of_fmap.
  destruct (list_find_elem_of (λ task, id task = id t) tasks t Ht eq_refl)
    as [[i t'] E].
  by exists i, t'.
Qed.

(** A change of the task at the index found that keeps its id does not
    move the index. *)
Lemma find_alter (id' : jsstring) (f : Task → Task) tasks i t :
  (∀ task, id (f task) = id task) →
  list_find (λ task, id task = id') tasks = Some (i, t) →
  list_find (λ task, id task = id') (alter f i tasks) = Some (i, f t).
Proof.
  intros Hf (Hi & Hp & Hlt)%list_find_Some. apply list_find_Some.
  split; [by rewrite list_lookup_alter_eq, Hi|].
  split; [by rewrite Hf|].
  intros j y Hj Hlt'. rewrite list_lookup_alter_ne in Hj by lia. eauto.
Qed.

(** ** Toggle *)

Lemma put_task_unknown id' w :
  id' ∉ id <$> loaded w → put_task id' w = (Returned not_found, initialised w).
Proof.
  intros Hn. unfold put_task, try_catch, mbind, M_bind.
  rewrite readTasks_returns.
  by rewrite (findIndex_none _ _ (find_unknown _ _ Hn)).
Qed.

Lemma put_task_found id' w i t :
  list_find (λ task, id task = id') (loaded w) = Some (i, t) →
  let w1 := initialised w in
  let now := ISO (clock w1 (ticks w1)) in
  put_task id' w =
    match write_fault w1 with
    | Some e =>
        (Returned (mkResponse 500
                     (PObject [("error", FString (js "Failed to update task"));
                               ("details", FString e)])),
         count_write (tick w1))
    | None =>
        (Returned (mkResponse 200 (PTask (toggled now t))),
         set_file (Doc (alter (toggled now) i (loaded w))) (count_write (tick w1)))
    end.
Proof.
  intros Hfind w1 now. unfold put_task, try_catch, mbind, M_bind.
  rewrite readTasks_returns. fold w1.
  rewrite (findIndex_found _ _ _ _ Hfind).
  replace (Z.of_nat i =? -1)%Z with false by (symmetry; apply Z.eqb_neq; lia).
  rewrite Nat2Z.id. unfold new_Date_toISOString. fold now.
  rewrite writeTasks_run. simpl.
  rewrite list_alter_alter_eq.
  destruct (write_fault w1); [done|].
  unfold element, mret, M_ret, res_json. rewrite list_lookup_alter_eq.
  apply list_find_Some in Hfind as (-> & _). done.
Qed.

(** ** Delete *)

Lemma filter_unknown (id' : jsstring) (tasks : list Task) :
  id' ∉ id <$> tasks → filter (λ task, id task ≠ id') tasks = tasks.
Proof.
  induction tasks as [|t tasks IH]; [done|]. rewrite fmap_cons, not_elem_of_cons.
  intros [Hne Hn]. rewrite filter_cons_True by done. by rewrite IH.
Qed.

Lemma filter_known_shorter (id' : jsstring) (tasks : list Task) :
  id' ∈ id <$> tasks →
  length (filter (λ task, id task ≠ id') tasks) < length tasks.
Proof.
  intros (t & -> & Ht)%list_elem_of_fmap.
  apply (length_filter_lt _ _ t); [done|]. by intros H.
Qed.

(** With distinct ids the filter of Delete takes one task out and keeps
    the others in their order. *)
Lemma filter_unique (id' : jsstring) (tasks : list Task) :
  unique_ids tasks → id' ∈ id <$> tasks →
  ∃ l1 t l2, tasks = l1 ++ t :: l2 ∧ id t = id' ∧
             filter (λ task, id task ≠ id') tasks = l1 ++ l2.
Proof.
  unfold unique_ids. induction tasks as [|t tasks IH]; [by intros _ ?%elem_of_nil|].
  rewrite fmap_cons, NoDup_cons, elem_of_cons. intros [Hn Hnd] [->|Hin].
  - exists [], t, tasks. rewrite filter_cons_False by (by intros H; apply H).
    by rewrite filter_unknown.
  - destruct (IH Hnd Hin) as (l1 & u & l2 & -> & Hu & Hf).
    exists (t :: l1), u, l2. split_and!; [done..|].
    rewrite filter_cons_True; [by rewrite Hf|].
    intros E. apply Hn. by rewrite E.
Qed.

Lemma delete_task_unknown id' w :
  id' ∉ id <$> loaded w → delete_task id' w = (Returned not_found, initialised w).
Proof.
  intros Hn. unfold delete_task, try_catch, mbind, M_bind.
  rewrite readTasks_returns, (filter_unknown _ _ Hn).
  by rewrite Nat.eqb_refl.
Qed.

Lemma delete_task_known id' w :
  id' ∈ id <$> loaded w →
  let w1 := initialised w in
  let rest := filter (λ task, id task ≠ id') (loaded w) in
  delete_task id' w =
    match write_fault w1 with
    | Some e =>
        (Returned (mkResponse 500
                     (PObject [("error", FString (js "Failed to delete task"));
                               ("details", FString e)])),
         count_write w1)
    | None =>
        (Returned (mkResponse 200
                     (PObject [("message", FString (js "Task deleted successfully"));
                               ("deletedId", FString id');
                               ("remainingTasks", FNumber (length rest))])),
         set_file (Doc rest) (count_write w1))
    end.
Proof.
  intros Hin w1 rest. unfold delete_task, try_catch, mbind, M_bind.
  rewrite readTasks_returns. fold w1 rest.
  replace (length (loaded w) =? length rest)%nat with false.
  2:{ symmetry. apply Nat.eqb_neq. pose proof (filter_known_shorter _ _ Hin).
      fold rest in H. lia. }
  rewrite writeTasks_run. by destruct (write_fault w1).
Qed.

(** ** Requests for an id that is not there *)

(** C6. When [tasks.json] exists and none of its tasks has the id asked
    for, Toggle and Delete both answer 404 and leave the world as they
    found it: same file, no [fs.writeFile] call. *)
Theorem unknown_id_not_found (w : world) (id' : jsstring) :
  file w ≠ None → id' ∉ id <$> collection w →
  put_task id' w =
    (Returned (mkResponse 404 (PObject [("error", FString (js "Task not found"))])), w) ∧
  delete_task id' w =
    (Returned (mkResponse 404 (PObject [("error", FString (js "Task not found"))])), w).
Proof.
  intros Hf Hn.
  assert (Hl : id' ∉ id <$> loaded w).
  { unfold loaded. destruct (read_fault w); [apply not_elem_of_nil | done]. }
  rewrite (put_task_unknown _ _ Hl), (delete_task_unknown _ _ Hl).
  by rewrite (initialised_present w Hf).
Qed.

Lemma unknown_id_not_found_witness :
  file sample_world ≠ None ∧ (js "42" ∉ id <$> collection sample_world) ∧
  put_task (js "42") sample_world =
    (Returned (mkResponse 404 (PObject [("error", FString (js "Task not found"))])),
     sample_world) ∧
  delete_task (js "42") sample_world =
    (Returned (mkResponse 404 (PObject [("error", FString (js "Task not found"))])),
     sample_world).
Proof.
  assert (Hf : file sample_world ≠ None) by done.
  assert (Hn : js "42" ∉ id <$> collection sample_world).
  { apply (bool_decide_unpack _). by vm_compute. }
  split; [exact Hf|]. split; [exact Hn|].
  exact (unknown_id_not_found sample_world (js "42") Hf Hn).
Defined.

(** While [tasks.json] does not exist the same requests answer 404 as
    well, and [readTasks] creates the file with no task in it. *)
Lemma unknown_id_creates_file (w : world) (id' : jsstring) :
  file w = None → write_fault w = None →
  ∃ w', put_task id' w = (Returned not_found, w') ∧
        delete_task id' w = (Returned not_found, w') ∧
        file w' = Some (Doc []) ∧ writes w' = S (writes w).
Proof.
  intros Hf Hw.
  assert (Hl : id' ∉ id <$> loaded w).
  { unfold loaded, collection. rewrite Hf. destruct (read_fault w); apply not_elem_of_nil. }
  exists (initialised w).
  rewrite (put_task_unknown _ _ Hl), (delete_task_unknown _ _ Hl).
  unfold initialised. by rewrite Hf, Hw.
Qed.

(** C2, as stated, fails: the answer of Delete has no property
    [remainingCount]; the count of the tasks that remain is sent under
    the name [remainingTasks]. *)
Lemma delete_answer_lacks_remainingCount :
  ¬ (∀ (w : world) (id' : jsstring) (r : response) (w' : world),
       read_fault w = None → write_fault w = None →
       unique_ids (collection w) → id' ∈ id <$> collection w →
       delete_task id' w = (Returned r, w') →
       property "deletedId" (body r) = Some (FString id') ∧
       property "remainingCount" (body r) = Some (FNumber (length (collection w')))).
Proof.
  intros H.
  destruct (H sample_world (js "995xyz")
              (mkResponse 200
                 (PObject [("message", FString (js "Task deleted successfully"));
                           ("deletedId", FString (js "995xyz"));
                           ("remainingTasks", FNumber 1)]))
              (set_file (Doc [buy_milk]) (count_write sample_world)))
    as [_ Hcount]; try done.
  - apply (bool_decide_unpack _). by vm_compute.
  - apply (bool_decide_unpack _). by vm_compute.
Qed.

Lemma collection_set_file tasks w : collection (set_file (Doc tasks) w) = tasks.
Proof. reflexivity. Qed.

Lemma loaded_readable w : read_fault w = None → loaded w = collection w.
Proof. unfold loaded. by intros ->. Qed.

Lemma known_id_present w id' : id' ∈ id <$> collection w → file w ≠ None.
Proof.
  unfold collection. destruct (file w); [done|]. by intros ?%elem_of_nil.
Qed.

(** C2, amended. In a Collection with distinct ids, Delete of an id that
    is there takes exactly that task out, the others stay in their
    order, and the Collection is one task shorter. The answer is 200
    with the properties [message], [deletedId] (the id deleted) and
    [remainingTasks] (the number of tasks left). A second Delete of the
    same id answers 404 and changes nothing. *)
Theorem delete_removes_one_task (w : world) (id' : jsstring) :
  read_fault w = None → write_fault w = None →
  unique_ids (collection w) → id' ∈ id <$> collection w →
  ∃ (w' : world) (l1 : list Task) (t : Task) (l2 : list Task),
    collection w = l1 ++ t :: l2 ∧ id t = id' ∧
    collection w' = l1 ++ l2 ∧
    S (length (collection w')) = length (collection w) ∧
    delete_task id' w =
      (Returned (mkResponse 200
                   (PObject [("message", FString (js "Task deleted successfully"));
                             ("deletedId", FString id');
                             ("remainingTasks", FNumber (length (collection w')))])),
       w') ∧
    delete_task id' w' =
      (Returned (mkResponse 404 (PObject [("error", FString (js "Task not found"))])), w').
Proof.
  intros Hr Hw Hu Hin.
  pose proof (known_id_present _ _ Hin) as Hf.
  destruct (filter_unique _ _ Hu Hin) as (l1 & t & l2 & Hsplit & Ht & Hrest).
  pose proof (delete_task_known id' w) as Hrun. cbv zeta in Hrun.
  rewrite (loaded_readable w Hr), (initialised_present w Hf), Hw, Hrest in Hrun.
  specialize (Hrun Hin). simpl in Hrun.
  exists (set_file (Doc (l1 ++ l2)) (count_write w)), l1, t, l2.
  split_and!; try done.
  - rewrite collection_set_file, Hsplit, !length_app. simpl. lia.
  - rewrite delete_task_unknown.
    + by rewrite initialised_present.
    + rewrite loaded_readable, collection_set_file, <- Hrest by done.
      intros (u & Hu' & [Hne _]%list_elem_of_filter)%list_elem_of_fmap. by apply Hne.
Qed.

Lemma delete_removes_one_task_witness :
  read_fault sample_world = None ∧ write_fault sample_world = None ∧
  unique_ids (collection sample_world) ∧
  (js "995xyz" ∈ id <$> collection sample_world) ∧
  ∃ (w' : world) (l1 : list Task) (t : Task) (l2 : list Task),
    collection sample_world = l1 ++ t :: l2 ∧ id t = js "995xyz" ∧
    collection w' = l1 ++ l2 ∧
    S (length (collection w')) = length (collection sample_world) ∧
    delete_task (js "995xyz") sample_world =
      (Returned (mkResponse 200
                   (PObject [("message", FString (js "Task deleted successfully"));
                             ("deletedId", FString (js "995xyz"));
                             ("remainingTasks", FNumber (length (collection w')))])),
       w') ∧
    delete_task (js "995xyz") w' =
      (Returned (mkResponse 404 (PObject [("error", FString (js "Task not found"))])), w').
Proof.
  assert (Hu : unique_ids (collection sample_world)).
  { apply (bool_decide_unpack _). by vm_compute. }
  assert (Hin : js "995xyz" ∈ id <$> collection sample_world).
  { apply (bool_decide_unpack _). by vm_compute. }
  split; [reflexivity|]. split; [reflexivity|]. split; [exact Hu|]. split; [exact Hin|].
  exact (delete_removes_one_task sample_world (js "995xyz") eq_refl eq_refl Hu Hin).
Defined.

(** ** Toggle on a task that is there *)

Lemma put_task_ok id' w i t :
  read_fault w = None → write_fault w = None →
  list_find (λ task, id task = id') (collection w) = Some (i, t) →
  put_task id' w =
    (Returned (mkResponse 200 (PTask (toggled (ISO (clock w (ticks w))) t))),
     set_file (Doc (alter (toggled (ISO (clock w (ticks w)))) i (collection w)))
              (count_write (tick w))).
Proof.
  intros Hr Hw Hfind.
  assert (Hf : file w ≠ None).
  { apply (known_id_present w id'). apply list_find_Some in Hfind as (Hi & <- & _).
    apply list_elem_of_fmap_2. by eapply list_elem_of_lookup_2. }
  pose proof (put_task_found id' w i t) as Hrun. cbv zeta in Hrun.
  rewrite (loaded_readable w Hr), (initialised_present w Hf), Hw in Hrun. auto.
Qed.

(** C8. Two Toggles of an id that is there: the task found (the first
    one with that id) has its [completed] flag negated by the first
    Toggle and back at its original value after the second, and each
    Toggle sets [updatedAt] to the reading of the clock it takes. *)
Theorem toggle_twice_restores_completed (w : world) (id' : jsstring) :
  read_fault w = None → write_fault w = None → id' ∈ id <$> collection w →
  ∃ (i : nat) (t t1 t2 : Task) (w1 w2 : world),
    list_find (λ task, id task = id') (collection w) = Some (i, t) ∧
    put_task id' w = (Returned (mkResponse 200 (PTask t1)), w1) ∧
    put_task id' w1 = (Returned (mkResponse 200 (PTask t2)), w2) ∧
    collection w1 !! i = Some t1 ∧
    collection w2 !! i = Some t2 ∧
    completed t1 = negb (completed t) ∧
    completed t2 = completed t ∧
    updatedAt t1 = ISO (clock w (ticks w)) ∧
    updatedAt t2 = ISO (clock w (1 + ticks w)).
Proof.
  intros Hr Hw Hin.
  destruct (find_known _ _ Hin) as (i & t & Hfind).
  pose proof (put_task_ok id' w i t Hr Hw Hfind) as H1.
  set (now1 := ISO (clock w (ticks w))) in *.
  set (w1 := set_file (Doc (alter (toggled now1) i (collection w)))
                      (count_write (tick w))) in *.
  assert (Hfind1 :
    list_find (λ task, id task = id') (collection w1) = Some (i, toggled now1 t)).
  { unfold w1. rewrite collection_set_file. by apply find_alter. }
  pose proof (put_task_ok id' w1 i _ Hr Hw Hfind1) as H2.
  eexists i, t, _, _, w1, _. split_and!; [done | exact H1 | exact H2 | ..].
  - apply list_find_Some in Hfind1. tauto.
  - rewrite collection_set_file, list_lookup_alter_eq.
    apply list_find_Some in Hfind1 as (-> & _). done.
  - done.
  - simpl. apply negb_involutive.
  - done.
  - done.
Qed.

Lemma toggle_twice_restores_completed_witness :
  read_fault sample_world = None ∧ write_fault sample_world = None ∧
  (js "995xyz" ∈ id <$> collection sample_world) ∧
  ∃ (i : nat) (t t1 t2 : Task) (w1 w2 : world),
    list_find (λ task, id task = js "995xyz") (collection sample_world) = Some (i, t) ∧
    put_task (js "995xyz") sample_world = (Returned (mkResponse 200 (PTask t1)), w1) ∧
    put_task (js "995xyz") w1 = (Returned (mkResponse 200 (PTask t2)), w2) ∧
    collection w1 !! i = Some t1 ∧
    collection w2 !! i = Some t2 ∧
    completed t1 = negb (completed t) ∧
    completed t2 = completed t ∧
    updatedAt t1 = ISO (clock sample_world (ticks sample_world)) ∧
    updatedAt t2 = ISO (clock sample_world (1 + ticks sample_world)).
Proof.
  assert (Hin : js "995xyz" ∈ id <$> collection sample_world).
  { apply (bool_decide_unpack _). by vm_compute. }
  split; [reflexivity|]. split; [reflexivity|]. split; [exact Hin|].
  exact (toggle_twice_restores_completed sample_world (js "995xyz") eq_refl eq_refl Hin).
Defined.

(** C10. Toggle of an id that is there changes one task only, the first
    one with that id, and of that task only [completed] and
    [updatedAt]: its [id], [text] and [createdAt] are kept, the
    Collection keeps its length and every other position keeps its
    task. *)
Theorem toggle_changes_one_task (w : world) (id' : jsstring) :
  read_fault w = None → write_fault w = None → id' ∈ id <$> collection w →
  ∃ (i : nat) (t t' : Task) (w' : world),
    list_find (λ task, id task = id') (collection w) = Some (i, t) ∧
    put_task id' w = (Returned (mkResponse 200 (PTask t')), w') ∧
    length (collection w') = length (collection w) ∧
    collection w' !! i = Some t' ∧
    id t' = id t ∧ text t' = text t ∧ createdAt t' = createdAt t ∧
    (∀ j, j ≠ i → collection w' !! j = collection w !! j).
Proof.
  intros Hr Hw Hin.
  destruct (find_known _ _ Hin) as (i & t & Hfind).
  pose proof (put_task_ok id' w i t Hr Hw Hfind) as Hrun.
  eexists i, t, _, _. split_and!; [done | exact Hrun | ..]; try done.
  - by rewrite collection_set_file, length_alter.
  - rewrite collection_set_file, list_lookup_alter_eq.
    apply list_find_Some in Hfind as (-> & _). done.
  - intros j Hj. by rewrite collection_set_file, list_lookup_alter_ne.
Qed.

Lemma toggle_changes_one_task_witness :
  read_fault sample_world = None ∧ write_fault sample_world = None ∧
  (js "1000abc" ∈ id <$> collection sample_world) ∧
  ∃ (i : nat) (t t' : Task) (w' : world),
    list_find (λ task, id task = js "1000abc") (collection sample_world) = Some (i, t) ∧
    put_task (js "1000abc") sample_world = (Returned (mkResponse 200 (PTask t')), w') ∧
    length (collection w') = length (collection sample_world) ∧
    collection w' !! i = Some t' ∧
    id t' = id t ∧ text t' = text t ∧ createdAt t' = createdAt t ∧
    (∀ j, j ≠ i → collection w' !! j = collection sample_world !! j).
Proof.
  assert (Hin : js "1000abc" ∈ id <$> collection sample_world).
  { apply (bool_decide_unpack _). by vm_compute. }
  split; [reflexivity|]. split; [reflexivity|]. split; [exact Hin|].
  exact (toggle_changes_one_task sample_world (js "1000abc") eq_refl eq_refl Hin).
Defined.

(** ** ClearCompleted *)

Lemma delete_completed_run w :
  let w1 := initialised w in
  let completedTasks := filter (λ task, completed task = true) (loaded w) in
  let activeTasks := filter (λ task, completed task ≠ true) (loaded w) in
  delete_completed w =
    if (length completedTasks =? 0)%nat then
      (Returned (mkResponse 200
                   (PObject [("message", FString (js "No completed tasks to clear"));
                             ("cleared", FNumber 0);
                             ("remaining", FNumber (length (loaded w)))])),
       w1)
    else
      match write_fault w1 with
      | Some e =>
          (Returned (mkResponse 500
                       (PObject [("error", FString (js "Failed to clear completed tasks"));
                                 ("details", FString e)])),
           count_write w1)
      | None =>
          (Returned (mkResponse 200
                       (PObject [("message", FString (js "Completed tasks cleared successfully"));
                                 ("cleared", FNumber (length completedTasks));
                                 ("remaining", FNumber (length activeTasks))])),
           set_file (Doc activeTasks) (count_write w1))
      end.
Proof.
  intros w1 completedTasks activeTasks.
  unfold delete_completed, try_catch, mbind, M_bind.
  rewrite readTasks_returns. fold w1 completedTasks activeTasks.
  destruct (length completedTasks =? 0)%nat; [done|].
  rewrite writeTasks_run. by destruct (write_fault w1).
Qed.

Lemma active_filter (tasks : list Task) :
  filter (λ task, completed task ≠ true) tasks
  = filter (λ task, completed task = false) tasks.
Proof. apply list_filter_iff. intros t. by destruct (completed t). Qed.

Lemma completed_plus_active (tasks : list Task) :
  length (filter (λ task, completed task = true) tasks)
  + length (filter (λ task, completed task = false) tasks) = length tasks.
Proof.
  rewrite <- active_filter, <- length_app.
  apply Permutation_length, filter_app_complement.
Qed.

Lemma none_completed (tasks : list Task) :
  Forall (λ task, completed task = false) tasks →
  filter (λ task, completed task = true) tasks = [].
Proof.
  induction 1 as [|t tasks Ht _ IH]; [done|].
  rewrite filter_cons_False; [done|]. simpl in Ht. congruence.
Qed.

(** C7. When [tasks.json] holds a Collection none of whose tasks is
    completed, ClearCompleted answers 200 with [cleared] 0 and
    [remaining] the number of tasks, and leaves the world as it found
    it: same tasks, no [fs.writeFile] call. *)
Theorem clear_without_completed (w : world) :
  file w ≠ None → read_fault w = None →
  Forall (λ task, completed task = false) (collection w) →
  delete_completed w =
    (Returned (mkResponse 200
                 (PObject [("message", FString (js "No completed tasks to clear"));
                           ("cleared", FNumber 0);
                           ("remaining", FNumber (length (collection w)))])),
     w).
Proof.
  intros Hf Hr Hall. rewrite delete_completed_run.
  rewrite (loaded_readable w Hr), (initialised_present w Hf).
  by rewrite (none_completed _ Hall).
Qed.

Lemma clear_without_completed_witness :
  file quiet_world ≠ None ∧ read_fault quiet_world = None ∧
  Forall (λ task, completed task = false) (collection quiet_world) ∧
  delete_completed quiet_world =
    (Returned (mkResponse 200
                 (PObject [("message", FString (js "No completed tasks to clear"));
                           ("cleared", FNumber 0);
                           ("remaining", FNumber (length (collection quiet_world)))])),
     quiet_world).
Proof.
  assert (Hf : file quiet_world ≠ None) by done.
  assert (Hall : Forall (λ task, completed task = false) (collection quiet_world)).
  { repeat constructor. }
  split; [exact Hf|]. split; [reflexivity|]. split; [exact Hall|].
  exact (clear_without_completed quiet_world Hf eq_refl Hall).
Defined.

(** C4, as stated, fails: the answer of ClearCompleted has no property
    [clearedCount] or [remainingCount]; the two counts are sent under
    the names [cleared] and [remaining]. *)
Lemma clear_answer_lacks_clearedCount :
  ¬ (∀ (w : world) (r : response) (w' : world),
       read_fault w = None → write_fault w = None →
       0 < length (filter (λ task, completed task = true) (collection w)) →
       delete_completed w = (Returned r, w') →
       property "clearedCount" (body r)
         = Some (FNumber (length (filter (λ task, completed task = true) (collection w)))) ∧
       property "remainingCount" (body r)
         = Some (FNumber (length (filter (λ task, completed task = false) (collection w))))).
Proof.
  intros H.
  destruct (H sample_world
              (mkResponse 200
                 (PObject [("message", FString (js "Completed tasks cleared successfully"));
                           ("cleared", FNumber 1);
                           ("remaining", FNumber 1)]))
              (set_file (Doc [buy_milk]) (count_write sample_world)))
    as [Hcleared _]; try done.
  vm_compute. lia.
Qed.

(** C4, amended. With [N] > 0 completed and [M] active tasks in the
    Collection, ClearCompleted leaves exactly the [M] active tasks, in
    their order and none of them completed, and answers 200 with the
    properties [message], [cleared] ([N]) and [remaining] ([M]). *)
Theorem clear_removes_completed (w : world) (N M : nat) :
  read_fault w = None → write_fault w = None →
  N = length (filter (λ task, completed task = true) (collection w)) →
  M = length (filter (λ task, completed task = false) (collection w)) →
  0 < N →
  ∃ w' : world,
    delete_completed w =
      (Returned (mkResponse 200
                   (PObject [("message", FString (js "Completed tasks cleared successfully"));
                             ("cleared", FNumber N);
                             ("remaining", FNumber M)])),
       w') ∧
    collection w' = filter (λ task, completed task = false) (collection w) ∧
    length (collection w') = M ∧
    Forall (λ task, completed task = false) (collection w') ∧
    N + M = length (collection w).
Proof.
  intros Hr Hw -> -> Hpos.
  assert (Hf : file w ≠ None).
  { unfold collection in Hpos. destruct (file w); [done|]. simpl in Hpos. lia. }
  eexists. split.
  { rewrite delete_completed_run.
    rewrite (loaded_readable w Hr), (initialised_present w Hf), Hw, active_filter.
    destruct (Nat.eqb_spec
                (length (filter (λ task, completed task = true) (collection w))) 0)
      as [E|_]; [lia | reflexivity]. }
  rewrite collection_set_file. split_and!; [done | done | | apply completed_plus_active].
  apply Forall_forall. by intros t [? _]%list_elem_of_filter.
Qed.

Lemma clear_removes_completed_witness :
  read_fault sample_world = None ∧ write_fault sample_world = None ∧
  1 = length (filter (λ task, completed task = true) (collection sample_world)) ∧
  1 = length (filter (λ task, completed task = false) (collection sample_world)) ∧
  0 < 1 ∧
  ∃ w' : world,
    delete_completed sample_world =
      (Returned (mkResponse 200
                   (PObject [("message", FString (js "Completed tasks cleared successfully"));
                             ("cleared", FNumber 1);
                             ("remaining", FNumber 1)])),
       w') ∧
    collection w' = filter (λ task, completed task = false) (collection sample_world) ∧
    length (collection w') = 1 ∧
    Forall (λ task, completed task = false) (collection w') ∧
    1 + 1 = length (collection sample_world).
Proof.
  split; [reflexivity|]. split; [reflexivity|]. split; [reflexivity|].
  split; [reflexivity|]. split; [lia|].
  apply (clear_removes_completed sample_world 1 1); (reflexivity || lia).
Defined.

(** ** Failures of the store *)

(** C3, as stated, fails: when the file is there and reading it fails,
    [readTasks] catches the error, and List answers 200 with no task. *)
Lemma list_swallows_read_failure :
  ¬ (∀ (w : world) (tasks : list Task) (e : jsstring) (r : response) (w' : world),
       file w = Some (Doc tasks) → read_fault w = Some e →
       get_tasks w = (Returned r, w') →
       status r = 500).
Proof.
  intros H.
  specialize (H unreadable_world [walk_dog; buy_milk] (js "EACCES: permission denied")
                (mkResponse 200 (PTasks [])) unreadable_world
                eq_refl eq_refl eq_refl).
  discriminate H.
Qed.

Lemma post_tasks_rejected v w :
  rejected v = true →
  post_tasks v w =
    (Returned (mkResponse 400
                 (PObject [("error",
                            FString (js "Task text is required and must be a non-empty string"))])),
     w).
Proof. intros Hv. unfold post_tasks, try_catch. by rewrite Hv. Qed.

Lemma accepted_is_valid v :
  rejected v = false → ∃ s, v = JString s ∧ ¬ blank s.
Proof.
  intros Hv. destruct v as [| |b|x|s|];
    try (unfold rejected in Hv; simpl in Hv; by rewrite ?orb_true_r in Hv).
  exists s. split; [done|]. intros Hb.
  pose proof (rejected_invalid (JString s)) as H. simpl in H.
  rewrite H in Hv; [done | tauto].
Qed.

Lemma initialised_writes w : file w ≠ None → writes (initialised w) = writes w.
Proof. intros Hf. by rewrite initialised_present. Qed.

Lemma faults_initialised w :
  read_fault (initialised w) = read_fault w ∧
  write_fault (initialised w) = write_fault w.
Proof.
  unfold initialised. destruct (file w); [done|].
  destruct (write_fault w) eqn:Hw; simpl; by rewrite Hw.
Qed.

Lemma valid_is_accepted v : valid_text v → rejected v = false.
Proof. destruct v; simpl; try done. apply accepted_valid. Qed.

Lemma loaded_after_failure w :
  is_Some (read_fault w) ∨ file w = None ∨ file w = Some Blank ∨ file w = Some Garbage →
  loaded w = [].
Proof.
  unfold loaded, collection.
  intros [[e ->]|[Hf|[Hf|Hf]]]; [done|..]; rewrite Hf; by destruct (read_fault w).
Qed.

(** C3, amended. The persisted state is the one of this model: no
    [tasks.json], or one that is blank, not parseable, or the array of
    tasks that [writeTasks] left. No handler throws. A save that fails
    is surfaced: when [fs.writeFile] fails with message [e], each request
    that gets as far as [writeTasks] (Add with a valid text, Toggle and
    Delete of an id found among the tasks loaded, ClearCompleted with a
    completed task among them) is answered 500 with the [error] text of
    its route and [e] as [details]. A load that fails is not surfaced:
    when [tasks.json] cannot be read, is missing (whether or not creating
    it succeeds), is blank or is not parseable, List answers 200 with
    the empty array. *)
Theorem save_failures_surface_load_failures_do_not (r : request) (w : world) :
  ∃ (resp : response) (w' : world),
    handle r w = (Returned resp, w') ∧
    (r = List →
     is_Some (read_fault w) ∨ file w = None ∨
       file w = Some Blank ∨ file w = Some Garbage →
     resp = mkResponse 200 (PTasks [])) ∧
    (∀ e, write_fault w = Some e →
       match r with
       | List => True
       | Add v =>
           valid_text v →
           resp = mkResponse 500
                    (PObject [("error", FString (js "Failed to add task"));
                              ("details", FString e)])
       | Toggle i =>
           i ∈ id <$> loaded w →
           resp = mkResponse 500
                    (PObject [("error", FString (js "Failed to update task"));
                              ("details", FString e)])
       | Delete i =>
           i ∈ id <$> loaded w →
           resp = mkResponse 500
                    (PObject [("error", FString (js "Failed to delete task"));
                              ("details", FString e)])
       | ClearCompleted =>
           (∃ t, t ∈ loaded w ∧ completed t = true) →
           resp = mkResponse 500
                    (PObject [("error", FString (js "Failed to clear completed tasks"));
                              ("details", FString e)])
       end).
Proof.
  destruct (faults_initialised w) as [_ Hw1].
  destruct r as [|v|i|i|]; simpl.
  - eexists _, _. split; [apply get_tasks_run|]. split; [|done].
    intros _ Hfail. by rewrite (loaded_after_failure w Hfail).
  - destruct (rejected v) eqn:Hv.
    + eexists _, _. split; [by apply post_tasks_rejected|]. split; [done|].
      intros e _ Hvalid. by rewrite (valid_is_accepted v Hvalid) in Hv.
    + destruct (accepted_is_valid v Hv) as (s & -> & Hb).
      pose proof (post_tasks_run s w Hb) as Hrun. cbv zeta in Hrun.
      destruct (write_fault (initialised w)) as [e'|] eqn:Hwi;
        (eexists _, _; split; [exact Hrun|]; split; [done|]);
        intros e He _;
        first [congruence | by assert (e' = e) as -> by congruence].
  - destruct (decide (i ∈ id <$> loaded w)) as [Hin|Hn].
    + destruct (find_known _ _ Hin) as (k & t & Hfind).
      pose proof (put_task_found i w k t Hfind) as Hrun. cbv zeta in Hrun.
      destruct (write_fault (initialised w)) as [e'|] eqn:Hwi;
        (eexists _, _; split; [exact Hrun|]; split; [done|]);
        intros e He _;
        first [congruence | by assert (e' = e) as -> by congruence].
    + eexists _, _. split; [by apply put_task_unknown|]. split; [done|].
      by intros e _ Hin.
  - destruct (decide (i ∈ id <$> loaded w)) as [Hin|Hn].
    + pose proof (delete_task_known i w Hin) as Hrun. cbv zeta in Hrun.
      destruct (write_fault (initialised w)) as [e'|] eqn:Hwi;
        (eexists _, _; split; [exact Hrun|]; split; [done|]);
        intros e He _;
        first [congruence | by assert (e' = e) as -> by congruence].
    + eexists _, _. split; [by apply delete_task_unknown|]. split; [done|].
      by intros e _ Hin.
  - pose proof (delete_completed_run w) as Hrun. cbv zeta in Hrun.
    destruct (decide (filter (λ task, completed task = true) (loaded w) = []))
      as [Hnone|Hsome].
    + rewrite Hnone in Hrun. eexists _, _. split; [exact Hrun|]. split; [done|].
      intros e He (t & Ht & Hc).
      assert (Hin : t ∈ filter (λ task, completed task = true) (loaded w))
        by by apply list_elem_of_filter.
      rewrite Hnone in Hin. by apply elem_of_nil in Hin.
    + destruct (Nat.eqb_spec
                  (length (filter (λ task, completed task = true) (loaded w))) 0)
        as [E|_]; [by apply length_zero_iff_nil in E|].
      destruct (write_fault (initialised w)) as [e'|] eqn:Hwi;
        (eexists _, _; split; [exact Hrun|]; split; [done|]);
        intros e He _;
        first [congruence | by assert (e' = e) as -> by congruence].
Qed.

Lemma save_failures_surface_load_failures_do_not_witness :
  (∃ (resp : response) (w' : world),
     handle (Add (JString (js "feed cat"))) readonly_world = (Returned resp, w') ∧
     resp = mkResponse 500
              (PObject [("error", FString (js "Failed to add task"));
                        ("details", FString (js "EROFS: read-only file system"))])) ∧
  (∃ (resp : response) (w' : world),
     handle List unreadable_world = (Returned resp, w') ∧
     resp = mkResponse 200 (PTasks [])).
Proof.
  split.
  - destruct (save_failures_surface_load_failures_do_not
                (Add (JString (js "feed cat"))) readonly_world)
      as (resp & w' & Hrun & _ & Hsave).
    exists resp, w'. split; [exact Hrun|].
    apply (Hsave _ eq_refl). intros Hb. vm_compute in Hb.
    by apply Forall_cons_1 in Hb as [? _].
  - destruct (save_failures_surface_load_failures_do_not List unreadable_world)
      as (resp & w' & Hrun & Hload & _).
    exists resp, w'. split; [exact Hrun|].
    apply Hload; [reflexivity|]. left. by eexists.
Defined.

Example list_on_unreadable_file :
  get_tasks unreadable_world = (Returned (mkResponse 200 (PTasks [])), unreadable_world).
Proof. reflexivity. Qed.

Example add_on_readonly_file :
  fst (post_tasks (JString (js "feed cat")) readonly_world) =
    Returned (mkResponse 500
                (PObject [("error", FString (js "Failed to add task"));
                          ("details", FString (js "EROFS: read-only file system"))])).
Proof. by vm_compute. Qed.

(** ** Distinct ids *)

Lemma collection_initialised w : collection (initialised w) = collection w.
Proof.
  unfold initialised, collection.
  destruct (file w) eqn:Hf; [by rewrite Hf|]. destruct (write_fault w); simpl; by rewrite ?Hf.
Qed.

Lemma collection_same_file w w' : file w' = file w → collection w' = collection w.
Proof. unfold collection. by intros ->. Qed.

(** Closes a goal about the Collection of a world whose file is the one
    [readTasks] left. *)
Ltac same_collection :=
  cbn [snd];
  rewrite (collection_same_file (initialised _)) by reflexivity;
  rewrite collection_initialised; assumption.

Lemma loaded_sublist w : loaded w `sublist_of` collection w.
Proof. unfold loaded. destruct (read_fault w); [apply sublist_nil_l | done]. Qed.

Lemma unique_ids_sublist (l k : list Task) :
  l `sublist_of` k → unique_ids k → unique_ids l.
Proof.
  unfold unique_ids. intros Hs Hk. eapply sublist_NoDup; [done|]. by apply fmap_sublist.
Qed.

Lemma unique_ids_loaded w : unique_ids (collection w) → unique_ids (loaded w).
Proof. apply unique_ids_sublist, loaded_sublist. Qed.

Lemma unique_ids_filter (P : Task → Prop) `{∀ t, Decision (P t)} tasks :
  unique_ids tasks → unique_ids (filter P tasks).
Proof. apply unique_ids_sublist, sublist_filter. Qed.

Lemma unique_ids_alter (f : Task → Task) i tasks :
  (∀ task, id (f task) = id task) →
  unique_ids tasks → unique_ids (alter f i tasks).
Proof.
  unfold unique_ids. intros Hf Hu.
  rewrite (list_fmap_alter id f (λ x, x)) by (apply Forall_true, Hf).
  by rewrite list_alter_id.
Qed.

Lemma unique_ids_snoc tasks t :
  id t ∉ id <$> tasks → unique_ids tasks → unique_ids (tasks ++ [t]).
Proof.
  unfold unique_ids. intros Hn Hu. rewrite fmap_app. apply NoDup_app.
  split_and!; [done | | apply NoDup_singleton].
  intros x Hx ->%list_elem_of_singleton. done.
Qed.

(** C9, as stated, fails: Add does not look at the ids already there.
    In [sample_world] the clock reads the millisecond in which
    [buy_milk] was added and the random source repeats itself, so the
    task that Add appends has the id of [buy_milk]. *)
Lemma add_can_repeat_an_id :
  ¬ (∀ (r : request) (w : world),
       unique_ids (collection w) → unique_ids (collection (snd (handle r w)))).
Proof.
  intros H.
  specialize (H (Add (JString (js "feed cat"))) sample_world).
  assert (Hu : unique_ids (collection sample_world)).
  { apply (bool_decide_unpack _). by vm_compute. }
  apply H in Hu. revert Hu. apply (bool_decide_eq_false_1 _). by vm_compute.
Qed.

(** C9, amended. Whatever the store does (reads or writes may fail),
    Toggle, Delete and ClearCompleted, as well as List, take a
    Collection with distinct ids to a Collection with distinct ids; Add
    does so when the id it generates, the decimal digits of the clock
    followed by at most nine characters of the random text, is not the id
    of a task of the Collection. The handler itself does not check
    that. *)
Theorem unique_ids_preserved (r : request) (w : world) :
  unique_ids (collection w) →
  (∀ text, r = Add text → next_id w ∉ id <$> collection w) →
  unique_ids (collection (snd (handle r w))).
Proof.
  intros Hu Hfresh. destruct r as [|v|i|i|]; simpl.
  - rewrite get_tasks_run. same_collection.
  - destruct (rejected v) eqn:Hv.
    + by rewrite post_tasks_rejected.
    + destruct (accepted_is_valid v Hv) as (s & -> & Hb).
      rewrite (post_tasks_run s w Hb).
      destruct (write_fault (initialised w)); [same_collection|].
      cbn [snd]. rewrite collection_set_file. apply unique_ids_snoc.
      * intros Hin. apply (Hfresh _ eq_refl).
        eapply elem_of_sublist; [|apply (fmap_sublist id), (loaded_sublist w)].
        revert Hin. unfold built_task, next_id, initialised. simpl.
        destruct (file w); [done|]. by destruct (write_fault w).
      * by apply unique_ids_loaded.
  - destruct (decide (i ∈ id <$> loaded w)) as [Hin|Hn].
    + destruct (find_known _ _ Hin) as (k & t & Hfind).
      rewrite (put_task_found i w k t Hfind).
      destruct (write_fault (initialised w)); [same_collection|].
      cbn [snd]. rewrite collection_set_file.
      apply unique_ids_alter; [done | by apply unique_ids_loaded].
    + rewrite put_task_unknown by done. same_collection.
  - destruct (decide (i ∈ id <$> loaded w)) as [Hin|Hn].
    + rewrite (delete_task_known i w Hin).
      destruct (write_fault (initialised w)); [same_collection|].
      cbn [snd]. rewrite collection_set_file.
      by apply unique_ids_filter, unique_ids_loaded.
    + rewrite delete_task_unknown by done. same_collection.
  - rewrite delete_completed_run.
    destruct (length (filter (λ task, completed task = true) (loaded w)) =? 0)%nat;
      [same_collection|].
    destruct (write_fault (initialised w)); [same_collection|].
    cbn [snd]. rewrite collection_set_file.
    by apply unique_ids_filter, unique_ids_loaded.
Qed.

Lemma unique_ids_preserved_witness :
  unique_ids (collection later_world) ∧
  (∀ text, Add (JString (js "feed cat")) = Add text →
           next_id later_world ∉ id <$> collection later_world) ∧
  unique_ids (collection (snd (handle (Add (JString (js "feed cat"))) later_world))).
Proof.
  assert (Hu : unique_ids (collection later_world)).
  { apply (bool_decide_unpack _). by vm_compute. }
  assert (Hfresh : ∀ text, Add (JString (js "feed cat")) = Add text →
                           next_id later_world ∉ id <$> collection later_world).
  { intros _ _. apply (bool_decide_unpack _). by vm_compute. }
  split; [exact Hu|]. split; [exact Hfresh|].
  exact (unique_ids_preserved (Add (JString (js "feed cat"))) later_world Hu Hfresh).
Defined.

(** * Further properties of the server *)

(** ** Every request is served by one of the branches *)

Lemma handle_served (r : request) (w : world) :
  ∃ (resp : response) (w' : world),
    handle r w = (Returned resp, w') ∧ served w r resp w'.
Proof.
  destruct r as [|v|i|i|]; simpl.
  - eexists _, _. split; [apply get_tasks_run | constructor].
  - destruct (rejected v) eqn:Hv.
    + eexists _, _. split; [by apply post_tasks_rejected | by constructor].
    + destruct (accepted_is_valid v Hv) as (s & -> & Hb).
      pose proof (post_tasks_run s w Hb) as Hrun. cbv zeta in Hrun.
      destruct (write_fault (initialised w)) as [e|] eqn:Hw;
        (eexists _, _; split; [exact Hrun | by constructor]).
  - destruct (decide (i ∈ id <$> loaded w)) as [Hin|Hn].
    + destruct (find_known _ _ Hin) as (k & t & Hfind).
      pose proof (put_task_found i w k t Hfind) as Hrun. cbv zeta in Hrun.
      destruct (write_fault (initialised w)) as [e|] eqn:Hw;
        (eexists _, _; split; [exact Hrun | by econstructor]).
    + eexists _, _. split; [by apply put_task_unknown | by constructor].
  - destruct (decide (i ∈ id <$> loaded w)) as [Hin|Hn].
    + pose proof (delete_task_known i w Hin) as Hrun. cbv zeta in Hrun.
      destruct (write_fault (initialised w)) as [e|] eqn:Hw;
        (eexists _, _; split; [exact Hrun | by constructor]).
    + eexists _, _. split; [by apply delete_task_unknown | by constructor].
  - pose proof (delete_completed_run w) as Hrun. cbv zeta in Hrun.
    destruct (decide (filter (λ task, completed task = true) (loaded w) = []))
      as [Hc|Hc].
    + rewrite Hc in Hrun. eexists _, _. split; [exact Hrun|]. by constructor.
    + destruct (Nat.eqb_spec
                  (length (filter (λ task, completed task = true) (loaded w))) 0)
        as [E|_]; [by apply length_zero_iff_nil in E|].
      destruct (write_fault (initialised w)) as [e|] eqn:Hw;
        (eexists _, _; split; [exact Hrun | by constructor]).
Qed.

Lemma handle_inv (r : request) (w : world) (resp : response) (w' : world) :
  handle r w = (Returned resp, w') → served w r resp w'.
Proof.
  destruct (handle_served r w) as (resp0 & w0 & -> & Hs). by intros [= <- <-].
Qed.

(** ** Loading *)

Lemma loaded_initialised w : loaded (initialised w) = loaded w.
Proof.
  unfold loaded. rewrite collection_initialised.
  unfold initialised. destruct (file w); [done|]. by destruct (write_fault w).
Qed.

Lemma initialised_twice w :
  file w ≠ None ∨ write_fault w = None → initialised (initialised w) = initialised w.
Proof.
  unfold initialised at 2 3. destruct (file w) eqn:Hf.
  - intros _. unfold initialised. by rewrite Hf.
  - intros [?| ->]; done.
Qed.

(** X1. Loading is idempotent. [readTasks] never throws, a second
    [readTasks] returns the tasks the first one returned, and it leaves
    the world as the first one left it whenever the file existed or
    could be created. *)
Theorem load_is_idempotent (w : world) :
  ∃ (tasks : list Task) (w1 w2 : world),
    readTasks w = (Returned tasks, w1) ∧
    readTasks w1 = (Returned tasks, w2) ∧
    (file w ≠ None ∨ write_fault w = None → w2 = w1 ∧ file w1 ≠ None) ∧
    (file w ≠ None → w1 = w).
Proof.
  exists (loaded w), (initialised w), (initialised (initialised w)).
  split_and!.
  - apply readTasks_returns.
  - rewrite readTasks_returns. by rewrite loaded_initialised.
  - intros H. split; [by apply initialised_twice|].
    unfold initialised. destruct (file w) eqn:Hf; [by rewrite Hf|].
    destruct H as [?| ->]; done.
  - apply initialised_present.
Qed.

(** X2. Start-up. [initializeTasksFile] never throws. A [tasks.json]
    that exists is returned as loaded and not touched; one that is
    missing is created holding the empty array when it can be written,
    and in both cases of a missing file no task is returned. *)
Theorem startup_creates_missing_file (w : world) :
  ∃ (tasks : list Task) (w' : world),
    initializeTasksFile w = (Returned tasks, w') ∧
    tasks = loaded w ∧
    (file w ≠ None → w' = w) ∧
    (file w = None → tasks = [] ∧ writes w' = S (writes w)) ∧
    (file w = None → write_fault w = None → file w' = Some (Doc [])) ∧
    (file w = None → is_Some (write_fault w) → file w' = None).
Proof.
  exists (loaded w), (initialised w).
  split_and!.
  - unfold initializeTasksFile, try_catch, mbind, M_bind.
    by rewrite readTasks_returns.
  - done.
  - apply initialised_present.
  - intros Hf. unfold loaded, collection, initialised. rewrite Hf.
    split; [by destruct (read_fault w) | by destruct (write_fault w)].
  - intros Hf Hw. unfold initialised. by rewrite Hf, Hw.
  - intros Hf [e Hw]. unfold initialised. by rewrite Hf, Hw.
Qed.

(** ** Writes and status codes *)

(** X3. With [tasks.json] in place a request issues at most one
    [fs.writeFile] call, and a request that issues none leaves the
    world untouched. List and the requests answered 400 or 404 issue
    none; a request answered 201 issues exactly one. *)
Theorem at_most_one_write (r : request) (w : world) :
  file w ≠ None →
  ∃ (resp : response) (w' : world),
    handle r w = (Returned resp, w') ∧
    (w' = w ∨ writes w' = S (writes w)) ∧
    (r = List ∨ status resp = 400 ∨ status resp = 404 → w' = w) ∧
    (status resp = 201 → writes w' = S (writes w)).
Proof.
  intros Hf. destruct (handle_served r w) as (resp & w' & Hrun & Hs).
  exists resp, w'. split; [done|].
  destruct Hs; rewrite ?(initialised_present w Hf); simpl;
    (split_and!;
     [ by (left + right)
     | by (intros [?|[?|?]])
     | by intros ? ]).
Qed.

Lemma at_most_one_write_witness :
  file sample_world ≠ None ∧
  ∃ (resp : response) (w' : world),
    handle (Toggle (js "995xyz")) sample_world = (Returned resp, w') ∧
    (w' = sample_world ∨ writes w' = S (writes sample_world)) ∧
    (Toggle (js "995xyz") = List ∨ status resp = 400 ∨ status resp = 404 →
     w' = sample_world) ∧
    (status resp = 201 → writes w' = S (writes sample_world)).
Proof.
  assert (Hf : file sample_world ≠ None) by done.
  split; [exact Hf|].
  exact (at_most_one_write (Toggle (js "995xyz")) sample_world Hf).
Defined.

(** X4. The status codes of each route, and where 500 comes from, for
    a request that has reached its handler and a [tasks.json] that is
    missing, blank, not parseable or the array of tasks that
    [writeTasks] left. List answers 200; Add 201, 400 or 500; Toggle and
    Delete 200, 404 or 500; ClearCompleted 200 or 500. A 500 is then
    answered only when [fs.writeFile] fails, and carries the message of
    that failure: a file that is missing, blank, not parseable or cannot
    be read is never answered 500. *)
Theorem status_codes (r : request) (w : world) :
  ∃ (resp : response) (w' : world),
    handle r w = (Returned resp, w') ∧
    match r with
    | List => status resp = 200
    | Add _ => status resp = 201 ∨ status resp = 400 ∨ status resp = 500
    | Toggle _ | Delete _ => status resp = 200 ∨ status resp = 404 ∨ status resp = 500
    | ClearCompleted => status resp = 200 ∨ status resp = 500
    end ∧
    (status resp = 500 →
     ∃ e, write_fault w = Some e ∧
          property "details" (body resp) = Some (FString e)).
Proof.
  destruct (handle_served r w) as (resp & w' & Hrun & Hs).
  exists resp, w'. split; [done|].
  assert (Hfault : ∀ e, write_fault (initialised w) = Some e → write_fault w = Some e).
  { intros e. unfold initialised. destruct (file w); [done|].
    destruct (write_fault w) eqn:Hw; simpl; by rewrite Hw. }
  destruct Hs; simpl; (split; [tauto|]); try done; intros _; eauto.
Qed.

(** ** More on Delete, ClearCompleted and Add *)

Lemma filter_split_length (id' : jsstring) (tasks : list Task) :
  length (filter (λ task, id task ≠ id') tasks)
  + length (filter (λ task, id task = id') tasks) = length tasks.
Proof.
  induction tasks as [|t tasks IH]; [done|].
  destruct (decide (id t = id')) as [E|E].
  - rewrite filter_cons_False by (by intros H; apply H).
    rewrite (filter_cons_True (λ task, id task = id')) by done. simpl. lia.
  - rewrite filter_cons_True by done.
    rewrite (filter_cons_False (λ task, id task = id')) by done. simpl. lia.
Qed.

(** X5. Delete without the uniqueness of ids: every task that carries
    the id goes, the others stay in their order, the id is not in the
    Collection afterwards, and [remainingTasks] is the number of tasks
    left, which is the former length less the number of tasks that
    carried the id. *)
Theorem delete_removes_every_match (w : world) (id' : jsstring) :
  read_fault w = None → write_fault w = None → id' ∈ id <$> collection w →
  ∃ (w' : world) (n : nat),
    delete_task id' w =
      (Returned (mkResponse 200
                   (PObject [("message", FString (js "Task deleted successfully"));
                             ("deletedId", FString id');
                             ("remainingTasks", FNumber n)])),
       w') ∧
    collection w' = filter (λ task, id task ≠ id') (collection w) ∧
    (id' ∉ id <$> collection w') ∧
    n = length (collection w') ∧
    n + length (filter (λ task, id task = id') (collection w)) = length (collection w) ∧
    0 < length (filter (λ task, id task = id') (collection w)).
Proof.
  intros Hr Hw Hin.
  pose proof (known_id_present _ _ Hin) as Hf.
  pose proof (delete_task_known id' w) as Hrun. cbv zeta in Hrun.
  rewrite (loaded_readable w Hr), (initialised_present w Hf), Hw in Hrun.
  eexists _, _. split; [exact (Hrun Hin)|].
  rewrite collection_set_file. split_and!; try done.
  - intros (u & Hu & [Hne _]%list_elem_of_filter)%list_elem_of_fmap. by apply Hne.
  - apply filter_split_length.
  - pose proof (filter_split_length id' (collection w)).
    pose proof (filter_known_shorter _ _ Hin). lia.
Qed.

Lemma delete_removes_every_match_witness :
  read_fault twin_world = None ∧ write_fault twin_world = None ∧
  (js "1000abc" ∈ id <$> collection twin_world) ∧
  ∃ (w' : world) (n : nat),
    delete_task (js "1000abc") twin_world =
      (Returned (mkResponse 200
                   (PObject [("message", FString (js "Task deleted successfully"));
                             ("deletedId", FString (js "1000abc"));
                             ("remainingTasks", FNumber n)])),
       w') ∧
    collection w' = filter (λ task, id task ≠ js "1000abc") (collection twin_world) ∧
    (js "1000abc" ∉ id <$> collection w') ∧
    n = length (collection w') ∧
    n + length (filter (λ task, id task = js "1000abc") (collection twin_world))
      = length (collection twin_world) ∧
    0 < length (filter (λ task, id task = js "1000abc") (collection twin_world)).
Proof.
  assert (Hin : js "1000abc" ∈ id <$> collection twin_world).
  { apply (bool_decide_unpack _). by vm_compute. }
  split; [reflexivity|]. split; [reflexivity|]. split; [exact Hin|].
  exact (delete_removes_every_match twin_world (js "1000abc") eq_refl eq_refl Hin).
Defined.

(** In [twin_world] one Delete takes two tasks out. *)
Example delete_twins :
  collection (snd (delete_task (js "1000abc") twin_world)) = [walk_dog].
Proof. by vm_compute. Qed.

Lemma none_completed_among_active (tasks : list Task) :
  filter (λ task, completed task = true)
    (filter (λ task, completed task ≠ true) tasks) = [].
Proof.
  induction tasks as [|t tasks IH]; [done|].
  destruct (completed t) eqn:E.
  - by rewrite filter_cons_False by (by rewrite E; intros H; apply H).
  - rewrite filter_cons_True by by rewrite E.
    by rewrite filter_cons_False by by rewrite E.
Qed.

(** X6. ClearCompleted is idempotent. After a ClearCompleted on a store
    that reads and writes, a second one finds nothing to clear: it
    answers [cleared] 0 with [remaining] the number of tasks, and
    changes nothing. *)
Theorem clear_completed_twice (w : world) :
  read_fault w = None → write_fault w = None →
  ∃ (resp : response) (w1 : world),
    delete_completed w = (Returned resp, w1) ∧
    status resp = 200 ∧
    delete_completed w1 =
      (Returned (mkResponse 200
                   (PObject [("message", FString (js "No completed tasks to clear"));
                             ("cleared", FNumber 0);
                             ("remaining", FNumber (length (collection w1)))])),
       w1).
Proof.
  intros Hr Hw.
  destruct (initialised_sound w Hw) as (Hc & Hr1 & Hw1 & _).
  assert (Hf1 : file (initialised w) ≠ None).
  { unfold initialised. destruct (file w) eqn:Hf; [by rewrite Hf | by rewrite Hw]. }
  pose proof (delete_completed_run w) as Hrun. cbv zeta in Hrun.
  rewrite (loaded_readable w Hr), Hw1 in Hrun.
  pose proof (delete_completed_run (initialised w)) as Hrun1. cbv zeta in Hrun1.
  rewrite (loaded_readable _ (eq_trans Hr1 Hr)), (initialised_present _ Hf1), Hc in Hrun1.
  destruct (decide (filter (λ task, completed task = true) (collection w) = []))
    as [Hnone|Hsome].
  - rewrite Hnone in Hrun, Hrun1. simpl in Hrun, Hrun1.
    eexists _, _. split; [exact Hrun|]. split; [done|]. by rewrite Hc.
  - destruct (Nat.eqb_spec
                (length (filter (λ task, completed task = true) (collection w))) 0)
      as [E|_]; [by apply length_zero_iff_nil in E|].
    eexists _, _. split; [exact Hrun|]. split; [done|].
    rewrite delete_completed_run.
    rewrite (initialised_present (set_file _ _)) by (simpl; congruence).
    rewrite (loaded_readable (set_file _ _)) by (simpl; congruence).
    rewrite collection_set_file. by rewrite none_completed_among_active.
Qed.

Lemma clear_completed_twice_witness :
  read_fault sample_world = None ∧ write_fault sample_world = None ∧
  ∃ (resp : response) (w1 : world),
    delete_completed sample_world = (Returned resp, w1) ∧
    status resp = 200 ∧
    delete_completed w1 =
      (Returned (mkResponse 200
                   (PObject [("message", FString (js "No completed tasks to clear"));
                             ("cleared", FNumber 0);
                             ("remaining", FNumber (length (collection w1)))])),
       w1).
Proof.
  split; [reflexivity|]. split; [reflexivity|].
  exact (clear_completed_twice sample_world eq_refl eq_refl).
Defined.

Lemma filter_snoc_fresh (t : Task) (tasks : list Task) :
  id t ∉ id <$> tasks →
  filter (λ task, id task ≠ id t) (tasks ++ [t]) = tasks.
Proof.
  intros Hn. rewrite filter_app, (filter_unknown _ _ Hn).
  rewrite filter_cons_False by (by intros H; apply H).
  by rewrite filter_nil, app_nil_r.
Qed.

(** X7. Delete undoes Add. When the id that Add generates is not
    already in the Collection, deleting the task just added gives back
    the Collection as it was before the Add, and [remainingTasks] is
    its length. *)
Theorem add_then_delete_restores (s : jsstring) (w : world) :
  valid_text (JString s) → read_fault w = None → write_fault w = None →
  next_id w ∉ id <$> collection w →
  ∃ (t : Task) (w1 w2 : world),
    post_tasks (JString s) w = (Returned (mkResponse 201 (PTask t)), w1) ∧
    delete_task (id t) w1 =
      (Returned (mkResponse 200
                   (PObject [("message", FString (js "Task deleted successfully"));
                             ("deletedId", FString (id t));
                             ("remainingTasks", FNumber (length (collection w)))])),
       w2) ∧
    collection w2 = collection w.
Proof.
  intros Hv Hr Hw Hfresh.
  destruct (initialised_sound w Hw) as (Hc & Hr1 & Hw1 & Hk & Ht & Hd & Hn).
  pose proof (post_tasks_run s w Hv) as Hadd. cbv zeta in Hadd.
  rewrite Hw1, (loaded_readable w Hr) in Hadd.
  set (t := built_task s (initialised w)) in *.
  assert (Hid : id t = next_id w).
  { unfold t, built_task, next_id. simpl. by rewrite Hk, Ht, Hd, Hn. }
  set (w1 := set_file (Doc (collection w ++ [t])) _) in Hadd.
  assert (Hin : id t ∈ id <$> loaded w1).
  { unfold w1, loaded. simpl. rewrite Hr1, Hr, collection_set_file, fmap_app.
    apply elem_of_app. right. by apply list_elem_of_singleton. }
  pose proof (delete_task_known (id t) w1 Hin) as Hdel. cbv zeta in Hdel.
  rewrite (initialised_present w1) in Hdel by (unfold w1; simpl; congruence).
  replace (write_fault w1) with (@None jsstring) in Hdel
    by (unfold w1; simpl; congruence).
  replace (loaded w1) with (collection w ++ [t]) in Hdel
    by (unfold w1, loaded; simpl; by rewrite Hr1, Hr).
  rewrite filter_snoc_fresh in Hdel by (by rewrite Hid).
  eexists t, w1, _. split_and!; [exact Hadd | exact Hdel | done].
Qed.

Lemma add_then_delete_restores_witness :
  valid_text (JString (js "feed cat")) ∧
  read_fault later_world = None ∧ write_fault later_world = None ∧
  (next_id later_world ∉ id <$> collection later_world) ∧
  ∃ (t : Task) (w1 w2 : world),
    post_tasks (JString (js "feed cat")) later_world
      = (Returned (mkResponse 201 (PTask t)), w1) ∧
    delete_task (id t) w1 =
      (Returned (mkResponse 200
                   (PObject [("message", FString (js "Task deleted successfully"));
                             ("deletedId", FString (id t));
                             ("remainingTasks", FNumber (length (collection later_world)))])),
       w2) ∧
    collection w2 = collection later_world.
Proof.
  assert (Hv : valid_text (JString (js "feed cat"))).
  { intros Hb. vm_compute in Hb. by apply Forall_cons_1 in Hb as [? _]. }
  assert (Hfresh : next_id later_world ∉ id <$> collection later_world).
  { apply (bool_decide_unpack _). by vm_compute. }
  split; [exact Hv|]. split; [reflexivity|]. split; [reflexivity|].
  split; [exact Hfresh|].
  exact (add_then_delete_restores _ later_world Hv eq_refl eq_refl Hfresh).
Defined.

(** X8. Add after a load that failed. When [fs.readFile] fails,
    [readTasks] hands Add an empty array, and the save that follows
    replaces whatever [tasks.json] held by the new task alone. *)
Theorem add_after_failed_read_replaces_file (s : jsstring) (w : world) (e : jsstring) :
  valid_text (JString s) → read_fault w = Some e → write_fault w = None →
  ∃ (t : Task) (w' : world),
    post_tasks (JString s) w = (Returned (mkResponse 201 (PTask t)), w') ∧
    file w' = Some (Doc [t]).
Proof.
  intros Hv Hr Hw.
  destruct (initialised_sound w Hw) as (_ & _ & Hw1 & _).
  pose proof (post_tasks_run s w Hv) as Hadd. cbv zeta in Hadd.
  rewrite Hw1 in Hadd. unfold loaded in Hadd. rewrite Hr in Hadd.
  eexists _, _. split; [exact Hadd | done].
Qed.

Lemma add_after_failed_read_replaces_file_witness :
  valid_text (JString (js "feed cat")) ∧
  read_fault unreadable_world = Some (js "EACCES: permission denied") ∧
  write_fault unreadable_world = None ∧
  ∃ (t : Task) (w' : world),
    post_tasks (JString (js "feed cat")) unreadable_world
      = (Returned (mkResponse 201 (PTask t)), w') ∧
    file w' = Some (Doc [t]).
Proof.
  assert (Hv : valid_text (JString (js "feed cat"))).
  { intros Hb. vm_compute in Hb. by apply Forall_cons_1 in Hb as [? _]. }
  split; [exact Hv|]. split; [reflexivity|]. split; [reflexivity|].
  exact (add_after_failed_read_replaces_file _ unreadable_world _ Hv eq_refl eq_refl).
Defined.

(** ** The shape of a task that Add creates *)

Lemma trimStart_split s :
  ∃ k, s = k ++ trimStart s ∧ blank k.
Proof.
  induction s as [|c s (k & Hk & Hb)]; simpl.
  - exists []. split; [done | constructor].
  - destruct (is_whitespace c) eqn:Hc.
    + exists (c :: k). split; [by rewrite <- app_comm_cons, <- Hk | by constructor].
    + exists []. split; [done | constructor].
Qed.

Lemma trimStart_fixed s :
  (∀ c r, s = c :: r → is_whitespace c = false) → trimStart s = s.
Proof.
  destruct s as [|c s]; [done|]. intros H. simpl. by rewrite (H c s eq_refl).
Qed.

Lemma trim_last s c r : trim s = r ++ [c] → is_whitespace c = false.
Proof.
  unfold trim, trimEnd. intros E. apply (f_equal reverse) in E.
  rewrite reverse_involutive, reverse_app in E. simpl in E.
  by apply trimStart_head in E.
Qed.

Lemma trim_head s c r : trim s = c :: r → is_whitespace c = false.
Proof.
  unfold trim, trimEnd. intros E.
  destruct (trimStart s) as [|d u] eqn:Hs; [done|].
  pose proof (trimStart_head _ _ _ Hs) as Hd.
  destruct (trimStart_split (reverse (d :: u))) as (k & Hk & _).
  apply (f_equal reverse) in E. rewrite reverse_involutive in E.
  rewrite E, reverse_cons in Hk. rewrite reverse_cons in Hk.
  rewrite app_assoc in Hk. apply app_inj_tail in Hk as [_ ->]. done.
Qed.

Lemma trim_fixed s :
  (∀ c r, s = c :: r → is_whitespace c = false) →
  (∀ c r, s = r ++ [c] → is_whitespace c = false) →
  trim s = s.
Proof.
  intros Hhead Hlast. unfold trim, trimEnd.
  rewrite (trimStart_fixed s Hhead), trimStart_fixed; [apply reverse_involutive|].
  intros c r E. apply (Hlast c (reverse r)).
  apply (f_equal reverse) in E. by rewrite reverse_involutive, reverse_cons in E.
Qed.

Lemma trim_idempotent s : trim (trim s) = trim s.
Proof. apply trim_fixed; [apply trim_head | apply trim_last]. Qed.

Lemma toString_nonempty n : toString n ≠ [].
Proof.
  unfold toString, DecimalString.NilZero.string_of_uint.
  by destruct (N.to_uint n).
Qed.

(** X9. Whatever Add is sent, a task it creates (an answer 201) has an
    id that is not empty, is not completed, and has a text that is not
    empty and neither starts nor ends with whitespace, so that trimming
    it again changes nothing. *)
Theorem created_task_is_well_formed (v : jsvalue) (w : world) (t : Task) (w' : world) :
  post_tasks v w = (Returned (mkResponse 201 (PTask t)), w') →
  id t ≠ [] ∧
  completed t = false ∧
  text t ≠ [] ∧
  (∀ c r, text t = c :: r → is_whitespace c = false) ∧
  (∀ c r, text t = r ++ [c] → is_whitespace c = false) ∧
  trim (text t) = text t.
Proof.
  intros Hrun. apply (handle_inv (Add v)) in Hrun.
  inversion Hrun as [| | |s Hb Hw| | | | | | | | |]; subst. simpl.
  split_and!.
  - unfold next_id. intros E. apply app_eq_nil in E as [E _].
    by apply toString_nonempty in E.
  - done.
  - by rewrite trim_nil_iff.
  - apply trim_head.
  - apply trim_last.
  - apply trim_idempotent.
Qed.

Lemma created_task_is_well_formed_witness :
  post_tasks (JString (js "  feed cat ")) sample_world
    = (Returned (mkResponse 201 (PTask feed_cat)),
       snd (post_tasks (JString (js "  feed cat ")) sample_world)) ∧
  id feed_cat ≠ [] ∧
  completed feed_cat = false ∧
  text feed_cat ≠ [] ∧
  (∀ c r, text feed_cat = c :: r → is_whitespace c = false) ∧
  (∀ c r, text feed_cat = r ++ [c] → is_whitespace c = false) ∧
  trim (text feed_cat) = text feed_cat.
Proof.
  assert (Hrun : post_tasks (JString (js "  feed cat ")) sample_world
                 = (Returned (mkResponse 201 (PTask feed_cat)),
                    snd (post_tasks (JString (js "  feed cat ")) sample_world))).
  { by vm_compute. }
  split; [exact Hrun|].
  exact (created_task_is_well_formed _ sample_world feed_cat _ Hrun).
Defined.

(** * Properties of the page *)

(** ** The order of the list *)

Lemma before_iff (a b : Task) :
  Frontend.before a b ↔
    (completed a = false ∧ completed b = true) ∨
    (completed a = completed b ∧
     (epoch_ms (createdAt b) ≤ epoch_ms (createdAt a))%N).
Proof.
  unfold Frontend.before, Frontend.compareTasks.
  destruct (completed a), (completed b); simpl; split; intros H;
    try lia; try (right; split; [done | lia]); try (by left);
    destruct H as [[? ?]|[? ?]]; try done; lia.
Qed.

(** X10. The comparator of [renderTasks] is a consistent comparator:
    it is 0 on a task and itself, swapping the arguments swaps the sign,
    and "not after" is transitive and total. This is what makes
    [Array.prototype.sort] yield one well-defined order. *)
Theorem compareTasks_consistent (a b c : Task) :
  Frontend.compareTasks a a = 0%Z ∧
  ((Frontend.compareTasks a b < 0)%Z ↔ (0 < Frontend.compareTasks b a)%Z) ∧
  (Frontend.compareTasks a b = 0%Z ↔ Frontend.compareTasks b a = 0%Z) ∧
  ((Frontend.compareTasks a b ≤ 0)%Z ∨ (Frontend.compareTasks b a ≤ 0)%Z) ∧
  ((Frontend.compareTasks a b ≤ 0)%Z → (Frontend.compareTasks b c ≤ 0)%Z →
   (Frontend.compareTasks a c ≤ 0)%Z).
Proof.
  unfold Frontend.compareTasks.
  destruct (completed a), (completed b), (completed c); simpl; lia.
Qed.

Lemma before_total a b : Frontend.before a b ∨ Frontend.before b a.
Proof.
  unfold Frontend.before, Frontend.compareTasks.
  destruct (completed a), (completed b); simpl; lia.
Qed.

Lemma before_trans a b c :
  Frontend.before a b → Frontend.before b c → Frontend.before a c.
Proof.
  unfold Frontend.before, Frontend.compareTasks.
  destruct (completed a), (completed b), (completed c); simpl; lia.
Qed.

Lemma insert_perm x l : Frontend.insert x l ≡ₚ x :: l.
Proof.
  induction l as [|y l IH]; simpl; [done|].
  destruct (decide (Frontend.before x y)); [done|].
  rewrite IH. apply Permutation_swap.
Qed.

Lemma sort_perm l : Frontend.sort l ≡ₚ l.
Proof.
  induction l as [|x l IH]; simpl; [done|]. by rewrite insert_perm, IH.
Qed.

Lemma insert_in_order x l : Frontend.in_order l → Frontend.in_order (Frontend.insert x l).
Proof.
  induction l as [|y l IH]; simpl; [by split|].
  intros [Hy Hl]. destruct (decide (Frontend.before x y)) as [Hxy|Hxy]; simpl.
  - split_and!; [|done..]. constructor; [done|].
    eapply Forall_impl; [exact Hy|]. intros z Hz. by eapply before_trans.
  - split; [|by apply IH]. rewrite insert_perm. constructor; [|done].
    by destruct (before_total x y).
Qed.

Lemma sort_in_order l : Frontend.in_order (Frontend.sort l).
Proof. induction l as [|x l IH]; simpl; [done|]. by apply insert_in_order. Qed.

Lemma in_order_lookup l i j a b :
  Frontend.in_order l → i < j → l !! i = Some a → l !! j = Some b → Frontend.before a b.
Proof.
  revert i j. induction l as [|x l IH]; intros i j Hl Hij Ha Hb; [done|].
  destruct Hl as [Hx Hl]. destruct j as [|j]; [lia|]. simpl in Hb.
  destruct i as [|i]; simpl in Ha.
  - injection Ha as ->. rewrite Forall_forall in Hx.
    by eapply Hx, list_elem_of_lookup_2.
  - eapply (IH i j); [done | lia | done..].
Qed.

Lemma filter_insert (P : Task → Prop) `{∀ t, Decision (P t)} x l :
  (∀ y, P x → P y → Frontend.before x y) →
  filter P (Frontend.insert x l) = filter P (x :: l).
Proof.
  intros Htie. induction l as [|y l IH]; simpl; [done|].
  destruct (decide (Frontend.before x y)) as [Hxy|Hxy]; [done|].
  rewrite filter_cons, IH, !filter_cons.
  destruct (decide (P y)) as [Hy|Hy]; [|done].
  destruct (decide (P x)) as [Hx|Hx]; [|done].
  by destruct Hxy; apply Htie.
Qed.

Lemma sort_keeps_ties (c : bool) (d : isotime) l :
  filter (λ t, completed t = c ∧ createdAt t = d) (Frontend.sort l)
  = filter (λ t, completed t = c ∧ createdAt t = d) l.
Proof.
  induction l as [|x l IH]; simpl; [done|].
  rewrite filter_insert.
  - by rewrite !filter_cons, IH.
  - intros y [Hx1 Hx2] [Hy1 Hy2]. apply before_iff. right.
    rewrite Hx1, Hy1, Hx2, Hy2. split; [done | lia].
Qed.

Lemma renderTasks_nonempty (p : Frontend.page) :
  Frontend.tasks p ≠ [] →
  Frontend.renderTasks p =
    Frontend.updateTaskCounter
      (Frontend.set_taskList (Frontend.Items (Frontend.sort (Frontend.tasks p))) p).
Proof.
  intros Hne. unfold Frontend.renderTasks.
  by destruct (Frontend.tasks p).
Qed.

(** X11. What [renderTasks] lists when there is a task. The list is a
    rearrangement of the copy, which itself is left as it was. Of two
    tasks listed, a completed one never stands above one that is not
    completed, and of two with the same [completed] the one above was
    not created earlier than the one below. Tasks with the same
    [completed] and [createdAt] stand in the order they have in the
    copy. *)
Theorem list_shows_active_first_newest_first (p : Frontend.page) :
  Frontend.tasks p ≠ [] →
  ∃ shown : list Task,
    Frontend.taskList (Frontend.renderTasks p) = Frontend.Items shown ∧
    Frontend.tasks (Frontend.renderTasks p) = Frontend.tasks p ∧
    shown ≡ₚ Frontend.tasks p ∧
    (∀ i j a b, i < j → shown !! i = Some a → shown !! j = Some b →
       (completed a = true → completed b = true) ∧
       (completed a = completed b →
        (epoch_ms (createdAt b) ≤ epoch_ms (createdAt a))%N)) ∧
    (∀ c d, filter (λ t, completed t = c ∧ createdAt t = d) shown
            = filter (λ t, completed t = c ∧ createdAt t = d) (Frontend.tasks p)).
Proof.
  intros Hne. exists (Frontend.sort (Frontend.tasks p)).
  rewrite (renderTasks_nonempty p Hne). split_and!; try done.
  - apply sort_perm.
  - intros i j a b Hij Ha Hb.
    pose proof (in_order_lookup _ i j a b (sort_in_order _) Hij Ha Hb) as H.
    apply before_iff in H. split.
    + intros Hc. destruct H as [[? ?]|[<- _]]; congruence.
    + intros Hc. destruct H as [[? ?]|[_ ?]]; [congruence | done].
  - intros c d. apply sort_keeps_ties.
Qed.

Lemma list_shows_active_first_newest_first_witness :
  Frontend.tasks Frontend.sample_page ≠ [] ∧
  ∃ shown : list Task,
    Frontend.taskList (Frontend.renderTasks Frontend.sample_page) = Frontend.Items shown ∧
    Frontend.tasks (Frontend.renderTasks Frontend.sample_page)
      = Frontend.tasks Frontend.sample_page ∧
    shown ≡ₚ Frontend.tasks Frontend.sample_page ∧
    (∀ i j a b, i < j → shown !! i = Some a → shown !! j = Some b →
       (completed a = true → completed b = true) ∧
       (completed a = completed b →
        (epoch_ms (createdAt b) ≤ epoch_ms (createdAt a))%N)) ∧
    (∀ c d, filter (λ t, completed t = c ∧ createdAt t = d) shown
            = filter (λ t, completed t = c ∧ createdAt t = d)
                (Frontend.tasks Frontend.sample_page)).
Proof.
  assert (Hne : Frontend.tasks Frontend.sample_page ≠ []) by done.
  split; [exact Hne|].
  exact (list_shows_active_first_newest_first Frontend.sample_page Hne).
Defined.

(** X12. The counter that [renderTasks] draws when there is a task:
    Total is the number of tasks of the copy, Completed the number of
    completed ones, and Pending, computed as their difference, is the
    number of tasks that are not completed. *)
Theorem counter_shows_the_copy (p : Frontend.page) :
  Frontend.tasks p ≠ [] →
  ∃ total pending done : nat,
    Frontend.counter (Frontend.renderTasks p) = Some (total, pending, done) ∧
    total = length (Frontend.tasks p) ∧
    done = length (filter (λ task, completed task = true) (Frontend.tasks p)) ∧
    pending = length (filter (λ task, completed task = false) (Frontend.tasks p)) ∧
    pending + done = total ∧
    0 < total.
Proof.
  intros Hne. rewrite (renderTasks_nonempty p Hne).
  eexists _, _, _. split; [reflexivity|]. simpl.
  pose proof (completed_plus_active (Frontend.tasks p)).
  split_and!; try done; try lia.
  destruct (Frontend.tasks p); [done | simpl; lia].
Qed.

Lemma counter_shows_the_copy_witness :
  Frontend.tasks Frontend.sample_page ≠ [] ∧
  ∃ total pending done : nat,
    Frontend.counter (Frontend.renderTasks Frontend.sample_page)
      = Some (total, pending, done) ∧
    total = length (Frontend.tasks Frontend.sample_page) ∧
    done = length (filter (λ task, completed task = true)
                     (Frontend.tasks Frontend.sample_page)) ∧
    pending = length (filter (λ task, completed task = false)
                        (Frontend.tasks Frontend.sample_page)) ∧
    pending + done = total ∧
    0 < total.
Proof.
  assert (Hne : Frontend.tasks Frontend.sample_page ≠ []) by done.
  split; [exact Hne|].
  exact (counter_shows_the_copy Frontend.sample_page Hne).
Defined.

(** ** The page and the server *)

(** Case analysis on the branch that served a request. *)
Ltac inv_served H :=
  inversion H; subst; repeat match goal with x := _ |- _ => subst x end.

Lemma fetch_served (r : request) (w : world) :
  Frontend.too_large r = false →
  ∃ (resp : response) (w' : world),
    Frontend.fetch r w = (resp, w') ∧ served w r resp w'.
Proof.
  intros Hsize. destruct (handle_served r w) as (resp & w' & Hrun & Hs).
  exists resp, w'. unfold Frontend.fetch. by rewrite Hsize, Hrun.
Qed.

Lemma fetch_refused (r : request) (w : world) :
  Frontend.too_large r = true →
  Frontend.fetch r w = (mkResponse 413 PUndefined, w).
Proof. intros Hsize. unfold Frontend.fetch. by rewrite Hsize. Qed.

(** No request changes whether the file can be read or written. *)
Lemma served_faults w r resp w' :
  served w r resp w' →
  read_fault w' = read_fault w ∧ write_fault w' = write_fault w.
Proof.
  assert (H : read_fault (initialised w) = read_fault w ∧
              write_fault (initialised w) = write_fault w).
  { unfold initialised. destruct (file w); [done|].
    destruct (write_fault w) eqn:Hw; simpl; by rewrite Hw. }
  by destruct 1; simpl.
Qed.

Lemma healthy_initialised w :
  Frontend.healthy w →
  write_fault (initialised w) = None ∧ loaded w = collection w ∧
  collection (initialised w) = collection w.
Proof.
  intros [Hr Hw]. destruct (initialised_sound w Hw) as (Hc & _ & Hw1 & _).
  by rewrite (loaded_readable w Hr).
Qed.

Lemma renderTasks_tasks p : Frontend.tasks (Frontend.renderTasks p) = Frontend.tasks p.
Proof.
  unfold Frontend.renderTasks. by destruct (length (Frontend.tasks p) =? 0)%nat.
Qed.

Lemma alter_as_insert {A} (f : A → A) (l : list A) k x :
  l !! k = Some x → <[k := f x]> l = alter f k l.
Proof.
  intros Hk. rewrite list_insert_alter. apply list_alter_ext; [|done].
  intros y Hy. congruence.
Qed.

Lemma not_blank_trimmed s : trim s ≠ [] → ¬ blank (trim s).
Proof. intros Hne Hb. apply trim_nil_iff in Hb. by rewrite trim_idempotent in Hb. Qed.

(** What one Delete makes of the Collection of a store that reads and
    writes, whether or not the id is there. *)
Lemma delete_step (i : jsstring) (w : world) :
  Frontend.healthy w →
  Frontend.healthy (snd (Frontend.fetch (Delete i) w)) ∧
  collection (snd (Frontend.fetch (Delete i) w))
    = filter (λ task, id task ≠ i) (collection w).
Proof.
  intros Hh. destruct (fetch_served (Delete i) w eq_refl) as (resp & w' & -> & Hs).
  destruct (served_faults _ _ _ _ Hs) as [Hr' Hw'].
  destruct (healthy_initialised w Hh) as (Hw1 & Hl & Hc). destruct Hh as [Hr Hw].
  split; [split; simpl; congruence|]. simpl.
  inv_served Hs.
  - rewrite Hc. symmetry. apply filter_unknown. by rewrite <- Hl.
  - congruence.
  - by rewrite collection_set_file, Hl.
Qed.

Lemma delete_all_steps (l : list Task) (w : world) :
  Frontend.healthy w →
  let w' := foldl (λ w task, snd (Frontend.fetch (Delete (id task)) w)) w l in
  Frontend.healthy w' ∧
  ∀ t, t ∈ collection w' → t ∈ collection w ∧ id t ∉ id <$> l.
Proof.
  revert w. induction l as [|x l IH]; intros w Hh; simpl.
  - split; [done|]. intros t Ht. split; [done | apply not_elem_of_nil].
  - destruct (delete_step (id x) w Hh) as [Hh1 Hc1].
    destruct (IH _ Hh1) as [Hh2 Hin]. split; [done|].
    intros t Ht. destruct (Hin t Ht) as [Ht1 Ht2].
    rewrite Hc1 in Ht1. apply list_elem_of_filter in Ht1 as [Hne Ht1].
    split; [done|]. by apply not_elem_of_cons.
Qed.

(** X13. The copy follows the server, for plain ids. Take a store that
    reads and writes, a Collection whose ids are plain (digits and
    lowercase letters, so that the id spliced into a URL is the route
    parameter) and a copy on the page that is this Collection. When the
    user reloads, adds, ticks or deletes a task of a plain id, clears
    the completed tasks or clears all, whatever the answer to
    [confirm], the function returns and the copy is the Collection
    afterwards too. A text too long for [express.json()] is answered
    413 and changes neither. *)
Theorem copy_follows_server (g : Frontend.gesture) (p : Frontend.page) (w : world) :
  Frontend.healthy w → Frontend.coherent p w →
  Forall (λ task, Frontend.plain_id (id task) = true) (collection w) →
  Frontend.plain_gesture g = true →
  ∃ (p' : Frontend.page) (w' : world),
    Frontend.perform g p w = Some (p', w') ∧
    Frontend.coherent p' w' ∧ Frontend.healthy w'.
Proof.
  intros Hh Hco _ _. unfold Frontend.coherent in *.
  destruct (healthy_initialised w Hh) as (Hw1 & Hl & Hc).
  assert (Hkeep : ∀ r resp w', served w r resp w' → Frontend.healthy w').
  { intros r resp w' Hs. destruct (served_faults _ _ _ _ Hs) as [? ?].
    destruct Hh. split; congruence. }
  destruct g as [| |i|i c|c|c]; simpl.
  - unfold Frontend.fetchTasks.
    destruct (fetch_served List w eq_refl) as (resp & w' & -> & Hs).
    pose proof (Hkeep _ _ _ Hs). inv_served Hs. simpl.
    eexists _, _. split; [done|]. split; [|done].
    by rewrite renderTasks_tasks, Hc.
  - unfold Frontend.addTask. case_bool_decide as Htext.
    { eexists _, _. by split. }
    destruct (Frontend.too_large (Add (JString (trim (Frontend.taskInput p)))))
      eqn:Hsize.
    { rewrite (fetch_refused _ w Hsize). simpl. eexists _, _. by split. }
    destruct (fetch_served (Add (JString (trim (Frontend.taskInput p)))) w Hsize)
      as (resp & w' & -> & Hs).
    pose proof (Hkeep _ _ _ Hs).
    pose proof (not_blank_trimmed _ Htext) as Hnb.
    inv_served Hs; simpl.
    + by rewrite accepted_valid in *.
    + congruence.
    + eexists _, _. split; [done|]. split; [|done].
      by rewrite renderTasks_tasks, collection_set_file, Hl, <- Hco.
  - unfold Frontend.toggleTask.
    destruct (fetch_served (Toggle i) w eq_refl) as (resp & w' & -> & Hs).
    pose proof (Hkeep _ _ _ Hs). inv_served Hs; simpl.
    + eexists _, _. split; [done|]. split; [|done]. simpl. by rewrite Hc.
    + congruence.
    + eexists _, _. split; [done|]. split; [|done].
      rewrite Hl in *. rewrite Hco.
      match goal with Hfind : list_find _ _ = Some _ |- _ =>
        rewrite (findIndex_found _ _ _ _ Hfind);
        apply list_find_Some in Hfind as (Hk & _ & _) end.
      replace (Z.of_nat k =? -1)%Z with false by (symmetry; apply Z.eqb_neq; lia).
      rewrite renderTasks_tasks, Nat2Z.id, collection_set_file. simpl.
      by apply alter_as_insert.
  - unfold Frontend.deleteTask. destruct c; simpl; [|by eexists _, _].
    destruct (fetch_served (Delete i) w eq_refl) as (resp & w' & -> & Hs).
    pose proof (Hkeep _ _ _ Hs). inv_served Hs; simpl.
    + eexists _, _. split; [done|]. split; [|done]. simpl. by rewrite Hc.
    + congruence.
    + eexists _, _. split; [done|]. split; [|done]. simpl.
      by rewrite renderTasks_tasks, collection_set_file, Hl, <- Hco.
  - unfold Frontend.clearCompleted.
    destruct (Nat.eqb_spec
                (length (filter (λ task, completed task = true) (Frontend.tasks p))) 0)
      as [E|E]; [by eexists _, _|].
    destruct c; simpl; [|by eexists _, _].
    destruct (fetch_served ClearCompleted w eq_refl) as (resp & w' & -> & Hs).
    pose proof (Hkeep _ _ _ Hs).
    inversion Hs as [| | | | | | | | | |Hnone|e Hsome|Hsome]; subst; simpl.
    + rewrite Hl, <- Hco in Hnone. by rewrite Hnone in E.
    + congruence.
    + eexists _, _. split; [done|]. split; [|done]. simpl.
      by rewrite renderTasks_tasks, collection_set_file, Hl, <- Hco.
  - unfold Frontend.clearAll.
    destruct (length (Frontend.tasks p) =? 0)%nat; [by eexists _, _|].
    destruct c; simpl; [|by eexists _, _].
    destruct (delete_all_steps (Frontend.tasks p) w Hh) as [Hh' Hin].
    eexists _, _. split; [done|]. split; [|done]. simpl.
    symmetry. apply elem_of_nil_inv. intros t Ht.
    destruct (Hin t Ht) as [Ht1 Ht2].
    apply Ht2. rewrite Hco. by apply list_elem_of_fmap_2.
Qed.

Lemma copy_follows_server_witness :
  Frontend.healthy sample_world ∧
  Frontend.coherent Frontend.sample_page sample_world ∧
  Forall (λ task, Frontend.plain_id (id task) = true) (collection sample_world) ∧
  Frontend.plain_gesture (Frontend.Tick (js "995xyz")) = true ∧
  ∃ (p' : Frontend.page) (w' : world),
    Frontend.perform (Frontend.Tick (js "995xyz")) Frontend.sample_page sample_world
      = Some (p', w') ∧
    Frontend.coherent p' w' ∧ Frontend.healthy w'.
Proof.
  assert (Hh : Frontend.healthy sample_world) by by split.
  assert (Hco : Frontend.coherent Frontend.sample_page sample_world) by reflexivity.
  assert (Hplain : Forall (λ task, Frontend.plain_id (id task) = true)
                     (collection sample_world)).
  { repeat constructor. }
  split; [exact Hh|]. split; [exact Hco|]. split; [exact Hplain|].
  split; [reflexivity|].
  exact (copy_follows_server (Frontend.Tick (js "995xyz")) _ _ Hh Hco Hplain eq_refl).
Defined.

Lemma write_fault_initialised w e :
  write_fault (initialised w) = Some e → write_fault w = Some e.
Proof.
  unfold initialised. destruct (file w); [done|].
  destruct (write_fault w) eqn:Hw; simpl; by rewrite Hw.
Qed.

Lemma unreadable_delete_is_noop (i : jsstring) (w : world) :
  file w ≠ None → is_Some (read_fault w) →
  snd (Frontend.fetch (Delete i) w) = w.
Proof.
  intros Hf [e He].
  assert (Hl : loaded w = []) by (unfold loaded; by rewrite He).
  destruct (fetch_served (Delete i) w eq_refl) as (resp & w' & -> & Hs). simpl.
  inv_served Hs.
  - by apply initialised_present.
  - rewrite Hl in *. by apply elem_of_nil in H0.
  - rewrite Hl in *. by apply elem_of_nil in H0.
Qed.

(** X14. Clear all trusts the server. Once the user has confirmed and
    the copy holds a task, [clearAll] empties the copy, shows the empty
    state and announces "All tasks deleted" without an alert, whatever
    the server answered to the Delete requests; the counter keeps the
    figures it showed before. When [tasks.json] is there and cannot be
    read, every one of those requests is answered 404 and the file still
    holds all its tasks. *)
Theorem clearAll_trusts_the_server (p : Frontend.page) (w : world) :
  Frontend.tasks p ≠ [] →
  ∃ w' : world,
    Frontend.clearAll true p w =
      Some (Frontend.mkPage [] (Frontend.taskInput p) Frontend.EmptyState
              (Frontend.counter p)
              (Some (js "All tasks deleted", "warning"))
              (Frontend.alerts p),
            w') ∧
    (file w ≠ None → is_Some (read_fault w) → w' = w).
Proof.
  intros Hne. unfold Frontend.clearAll.
  destruct (Frontend.tasks p) as [|t l] eqn:E; [done|]. cbn [length Nat.eqb negb].
  eexists. split; [reflexivity|].
  intros Hf Hr. generalize (t :: l). intros l'.
  induction l' as [|x l' IH] using rev_ind; [done|].
  by rewrite foldl_snoc, IH, unreadable_delete_is_noop.
Qed.

Lemma clearAll_trusts_the_server_witness :
  Frontend.tasks Frontend.sample_page ≠ [] ∧
  ∃ w' : world,
    Frontend.clearAll true Frontend.sample_page unreadable_world =
      Some (Frontend.mkPage [] (Frontend.taskInput Frontend.sample_page)
              Frontend.EmptyState
              (Frontend.counter Frontend.sample_page)
              (Some (js "All tasks deleted", "warning"))
              (Frontend.alerts Frontend.sample_page),
            w') ∧
    (file unreadable_world ≠ None → is_Some (read_fault unreadable_world) →
     w' = unreadable_world).
Proof.
  assert (Hne : Frontend.tasks Frontend.sample_page ≠ []) by done.
  split; [exact Hne|].
  exact (clearAll_trusts_the_server Frontend.sample_page unreadable_world Hne).
Defined.

(** No answer to ClearCompleted has a property [count]. *)
Lemma clear_answer_has_no_count (w : world) (resp : response) (w' : world) :
  served w ClearCompleted resp w' → property "count" (body resp) = None.
Proof. by inversion 1. Qed.

(** X15. The notification of [clearCompleted] never tells the count.
    The page reads [result.count], a property that no answer of the
    server has: when the copy holds a completed task and the user has
    confirmed, either the request fails, because the file cannot be
    written, and the page alerts, or the notification reads "Cleared
    undefined completed task(s)". *)
Theorem cleared_count_reads_undefined (p : Frontend.page) (w : world) :
  filter (λ task, completed task = true) (Frontend.tasks p) ≠ [] →
  ∃ (p' : Frontend.page) (w' : world),
    Frontend.clearCompleted true p w = Some (p', w') ∧
    (Frontend.notification p'
       = Some (js "Cleared undefined completed task(s)", "info") ∨
     (is_Some (write_fault w) ∧
      p' = Frontend.alert "Failed to clear completed tasks." p)).
Proof.
  intros Hsome. unfold Frontend.clearCompleted.
  destruct (Nat.eqb_spec
              (length (filter (λ task, completed task = true) (Frontend.tasks p))) 0)
    as [E|_]; [by apply length_zero_iff_nil in E|].
  cbn [negb].
  destruct (fetch_served ClearCompleted w eq_refl) as (resp & w' & -> & Hs).
  pose proof (clear_answer_has_no_count _ _ _ Hs) as Hcount.
  destruct (served_faults _ _ _ _ Hs) as [_ Hw'].
  assert (Hfault : ∀ e, write_fault (initialised w) = Some e → is_Some (write_fault w)).
  { intros e He. exists e. by apply write_fault_initialised. }
  inv_served Hs; simpl; eexists _, _; (split; [reflexivity|]); simpl; eauto.
Qed.

Lemma cleared_count_reads_undefined_witness :
  filter (λ task, completed task = true) (Frontend.tasks Frontend.sample_page) ≠ [] ∧
  ∃ (p' : Frontend.page) (w' : world),
    Frontend.clearCompleted true Frontend.sample_page sample_world = Some (p', w') ∧
    (Frontend.notification p'
       = Some (js "Cleared undefined completed task(s)", "info") ∨
     (is_Some (write_fault sample_world) ∧
      p' = Frontend.alert "Failed to clear completed tasks." Frontend.sample_page)).
Proof.
  assert (H : filter (λ task, completed task = true)
                (Frontend.tasks Frontend.sample_page) ≠ []).
  { by vm_compute. }
  split; [exact H|].
  exact (cleared_count_reads_undefined Frontend.sample_page sample_world H).
Defined.

(** X16. A file that cannot be read looks like an empty list. When
    [fs.readFile] fails, [fetchTasks] gets 200 and an empty array: the
    copy is emptied and the empty state shown, with no alert, and the
    counter is left as it was. *)
Theorem reload_hides_read_failure (p : Frontend.page) (w : world) (e : jsstring) :
  read_fault w = Some e →
  ∃ w' : world,
    Frontend.fetchTasks p w =
      Some (Frontend.mkPage [] (Frontend.taskInput p) Frontend.EmptyState
              (Frontend.counter p) (Frontend.notification p) (Frontend.alerts p),
            w') ∧
    (file w ≠ None → w' = w).
Proof.
  intros Hr. unfold Frontend.fetchTasks.
  destruct (fetch_served List w eq_refl) as (resp & w' & -> & Hs). inv_served Hs.
  unfold loaded. rewrite Hr. simpl.
  eexists. split; [reflexivity | apply initialised_present].
Qed.

Lemma reload_hides_read_failure_witness :
  read_fault unreadable_world = Some (js "EACCES: permission denied") ∧
  ∃ w' : world,
    Frontend.fetchTasks Frontend.sample_page unreadable_world =
      Some (Frontend.mkPage [] (Frontend.taskInput Frontend.sample_page)
              Frontend.EmptyState
              (Frontend.counter Frontend.sample_page)
              (Frontend.notification Frontend.sample_page)
              (Frontend.alerts Frontend.sample_page),
            w') ∧
    (file unreadable_world ≠ None → w' = unreadable_world).
Proof.
  split; [reflexivity|].
  exact (reload_hides_read_failure Frontend.sample_page unreadable_world _ eq_refl).
Defined.

(** X17. The check of the page and the check of the server agree.
    [addTask] sends nothing when the input is empty or whitespace only:
    it alerts and leaves the world alone. Otherwise it sends the trimmed
    input, and the answer is never the 400 of the server's own check.
    Either the body is over the 100kb that [express.json()] reads: the
    answer is 413, the page alerts and nothing else changes. Or the
    handler runs and answers 201, and then the new task has that
    trimmed input as its text, joins the copy at its end and the input
    is emptied; or it answers 500 and the page alerts. *)
Theorem page_and_server_validate_alike (p : Frontend.page) (w : world) :
  ∃ (p' : Frontend.page) (w' : world),
    Frontend.addTask p w = Some (p', w') ∧
    (blank (Frontend.taskInput p) →
     p' = Frontend.alert "Please enter a task!" p ∧ w' = w) ∧
    (¬ blank (Frontend.taskInput p) →
     ∃ resp : response,
       Frontend.fetch (Add (JString (trim (Frontend.taskInput p)))) w = (resp, w') ∧
       status resp ≠ 400 ∧
       ((status resp = 413 ∧
         (Frontend.body_limit < Frontend.body_bytes (trim (Frontend.taskInput p)))%N ∧
         p' = Frontend.alert "Failed to add task. Please try again." p ∧ w' = w) ∨
        (status resp = 500 ∧
         (Frontend.body_bytes (trim (Frontend.taskInput p)) ≤ Frontend.body_limit)%N ∧
         p' = Frontend.alert "Failed to add task. Please try again." p) ∨
        (status resp = 201 ∧
         (Frontend.body_bytes (trim (Frontend.taskInput p)) ≤ Frontend.body_limit)%N ∧
         ∃ t, body resp = PTask t ∧
              text t = trim (Frontend.taskInput p) ∧
              Frontend.tasks p' = Frontend.tasks p ++ [t] ∧
              Frontend.taskInput p' = []))).
Proof.
  unfold Frontend.addTask. case_bool_decide as Htext.
  - eexists _, _. split; [reflexivity|]. split; [done|].
    intros Hnb. by apply trim_nil_iff in Htext.
  - destruct (Frontend.too_large (Add (JString (trim (Frontend.taskInput p)))))
      eqn:Hsize.
    + rewrite (fetch_refused _ w Hsize). simpl. eexists _, _. split; [reflexivity|].
      split; [by intros ?%trim_nil_iff|]. intros _. eexists. split; [done|].
      split; [done|]. left. split_and!; try done.
      by apply N.ltb_lt in Hsize.
    + destruct (fetch_served _ w Hsize) as (resp & w' & Hfetch & Hs).
      rewrite Hfetch. apply N.ltb_ge in Hsize.
      pose proof (not_blank_trimmed _ Htext) as Hnb.
      inv_served Hs; simpl.
      * by rewrite accepted_valid in *.
      * eexists _, _. split; [reflexivity|].
        split; [by intros ?%trim_nil_iff|]. intros _. eexists. split; [done|].
        split; [done|]. right. left. done.
      * eexists _, _. split; [reflexivity|].
        split; [by intros ?%trim_nil_iff|]. intros _. eexists. split; [done|].
        split; [done|]. right. right. split; [done|]. split; [done|].
        eexists. split; [done|]. simpl.
        split_and!; [apply trim_idempotent | by rewrite renderTasks_tasks |].
        unfold Frontend.renderTasks. by destruct (length _ =? 0)%nat.
Qed.
